(** * Map memory: a windowed cache of remembered terrain with per-chunk files

    Shallow embedding of [src/map_memory.cpp] (Cataclysm: Bright Nights).

    - C++ [int] coordinates are integers of [Z]; signed overflow is
      undefined in C++ and no function below relies on it.
    - [shared_ptr_fast<memorized_submap>] is an address into an explicit
      heap, so that the chunk store ([submaps]) and the dense window
      ([cached]) alias the same objects.
    - The static [null_mz_submap] is a field of the state of its own: it is
      not owned by any shared pointer.
    - The file system, the debug log and the base save path of the global
      [g] are fields of the state as well.
    - Undefined behaviour (indexing a vector or an array out of range,
      dereferencing a dangling pointer) and a failed [assert] are [None]. *)

From Stdlib Require Import Ascii.
From stdpp Require Import gmap strings list fin_maps pretty.

#[local] Open Scope Z_scope.

(** ** Points *)

Module point.
Record t : Type := mk { x : Z; y : Z }.

Definition add (a b : t) : t := mk (x a + x b) (y a + y b).
Definition sub (a b : t) : t := mk (x a - x b) (y a - y b).

#[global] Instance eq_dec : EqDecision t.
Proof. solve_decision. Defined.
End point.

Module tripoint.
Record t : Type := mk { x : Z; y : Z; z : Z }.

(** [tripoint( const point &p, int z )] *)
Definition of_point (p : point.t) (z0 : Z) : t := mk (point.x p) (point.y p) z0.
(** [tripoint::xy()] *)
Definition xy (a : t) : point.t := point.mk (x a) (y a).
(** [tripoint + tripoint], [tripoint - tripoint] *)
Definition add (a b : t) : t := mk (x a + x b) (y a + y b) (z a + z b).
Definition sub (a b : t) : t := mk (x a - x b) (y a - y b) (z a - z b).
(** [tripoint + point], [tripoint - point]: the level is kept *)
Definition add_point (a : t) (b : point.t) : t :=
  mk (x a + point.x b) (y a + point.y b) (z a).
Definition sub_point (a : t) (b : point.t) : t :=
  mk (x a - point.x b) (y a - point.y b) (z a).

#[global] Instance eq_dec : EqDecision t.
Proof. solve_decision. Defined.

#[global] Instance countable : Countable t :=
  inj_countable' (λ a, (x a, y a, z a)) (λ '(a, b, c), mk a b c)
                 (λ a, match a with mk _ _ _ => eq_refl end).
End tripoint.

(** ** Remembered tiles and chunks *)

Record memorized_terrain_tile : Type := mk_tile {
  tile : string;
  subtile : Z;
  rotation : Z
}.

#[global] Instance memorized_terrain_tile_eq_dec : EqDecision memorized_terrain_tile.
Proof. solve_decision. Defined.

Definition default_tile : memorized_terrain_tile := mk_tile EmptyString 0 0.
Definition default_symbol : Z := 0.

(** [memorized_submap] holds two [SEEX] by [SEEX] arrays.  An array of fixed
    size is a function on indices; the bounds are checked where it is
    indexed ([grid_get], [grid_set]). *)
Record memorized_submap : Type := mk_submap {
  tiles : Z → Z → memorized_terrain_tile;
  symbols : Z → Z → Z
}.

(** [memorized_submap::memorized_submap()] *)
Definition new_memorized_submap : memorized_submap :=
  mk_submap (λ _ _, default_tile) (λ _ _, default_symbol).

(** * Straight paths ([src/simple_pathfinding.h]) *)

Module pf.

(** [pf::node<Point>], at [Point = point]. *)
Record node : Type := mk_node { pos : point.t; dir : Z; priority : Z }.


(** [node::operator<]: the node of greater priority is the lesser one. *)
Definition node_lt (a b : node) : bool := priority b <? priority a.




End pf.

Section MapMemory.

(** Constants of [game_constants.h] and [cata_utility.h], which the file
    includes: the edge of a submap, the width of the reality bubble in
    submaps, and the extension of the legacy file. *)
Variable SEEX : Z.
Variable MAPSIZE : Z.
Variable SAVE_EXTENSION_MAP_MEMORY : string.

Definition MM_SIZE : Z := MAPSIZE * 2.

Definition in_bounds (i : Z) : bool := (0 <=? i) && (i <? SEEX).

(** [a[i][j]] *)
Definition grid_get {A : Type} (a : Z → Z → A) (i j : Z) : option A :=
  if in_bounds i && in_bounds j then Some (a i j) else None.

(** [a[i][j] = v] *)
Definition grid_set {A : Type} (a : Z → Z → A) (i j : Z) (v : A) : option (Z → Z → A) :=
  if in_bounds i && in_bounds j
  then Some (λ i' j', if (i' =? i) && (j' =? j) then v else a i' j')
  else None.

(** ** Coordinate mapper *)

(** Modelled from the spec: [ms_to_sm_remain] of [coordinate_conversions.h]
    is missing.  It takes [x] and [y] by reference, returns the submap that
    holds them by floor division by the submap edge, and leaves the
    remainders in [x] and [y].  The result is the returned point with the
    new values of [x] and [y]. *)
Definition ms_to_sm_remain (x y : Z) : point.t * (Z * Z) :=
  (point.mk (x `div` SEEX) (y `div` SEEX), (x `mod` SEEX, y `mod` SEEX)).

Record coord_pair : Type := mk_coord_pair { sm : tripoint.t; loc : point.t }.

(** [map_memory::coord_pair::coord_pair( const tripoint &p )] *)
Definition coord_pair_of (p : tripoint.t) : coord_pair :=
  let loc0 := tripoint.xy p in
  let '(q, (x', y')) := ms_to_sm_remain (point.x loc0) (point.y loc0) in
  mk_coord_pair (tripoint.of_point q (tripoint.z p)) (point.mk x' y').

(** ** State *)

(** The address held by a [shared_ptr_fast<memorized_submap>]. *)
Definition ptr : Type := nat.

(** An exception is the message of its [what()]. *)
Definition exn : Type := string.

(** The part of the file system the functions see: the directories that
    exist, the text of the files, and whether creating a directory or
    writing a file is going to succeed. *)
Record filesystem : Type := mk_fs {
  dirs : gset string;
  files : gmap string string;
  mkdir_ok : string → bool;
  write_ok : string → bool
}.

Record state : Type := mk_state {
  (* members of map_memory *)
  submaps : gmap tripoint.t ptr;
  cached : list ptr;
  cache_pos : tripoint.t;
  cache_size : point.t;
  (* the objects behind the shared pointers *)
  heap : gmap ptr memorized_submap;
  (* static memorized_submap null_mz_submap *)
  null_mz_submap : memorized_submap;
  (* the world outside *)
  disk : filesystem;
  debug_log : list string;
  base_save_path : string
}.

Definition set_submaps (f : gmap tripoint.t ptr → gmap tripoint.t ptr) (s : state) : state :=
  mk_state (f (submaps s)) (cached s) (cache_pos s) (cache_size s) (heap s)
           (null_mz_submap s) (disk s) (debug_log s) (base_save_path s).

Definition set_cached (f : list ptr → list ptr) (s : state) : state :=
  mk_state (submaps s) (f (cached s)) (cache_pos s) (cache_size s) (heap s)
           (null_mz_submap s) (disk s) (debug_log s) (base_save_path s).

Definition set_cache_pos (p : tripoint.t) (s : state) : state :=
  mk_state (submaps s) (cached s) p (cache_size s) (heap s)
           (null_mz_submap s) (disk s) (debug_log s) (base_save_path s).

Definition set_cache_size (p : point.t) (s : state) : state :=
  mk_state (submaps s) (cached s) (cache_pos s) p (heap s)
           (null_mz_submap s) (disk s) (debug_log s) (base_save_path s).

Definition set_heap (f : gmap ptr memorized_submap → gmap ptr memorized_submap)
    (s : state) : state :=
  mk_state (submaps s) (cached s) (cache_pos s) (cache_size s) (f (heap s))
           (null_mz_submap s) (disk s) (debug_log s) (base_save_path s).

Definition set_null_mz_submap (m : memorized_submap) (s : state) : state :=
  mk_state (submaps s) (cached s) (cache_pos s) (cache_size s) (heap s)
           m (disk s) (debug_log s) (base_save_path s).

Definition set_disk (f : filesystem → filesystem) (s : state) : state :=
  mk_state (submaps s) (cached s) (cache_pos s) (cache_size s) (heap s)
           (null_mz_submap s) (f (disk s)) (debug_log s) (base_save_path s).

(** Modelled from the spec: [debugmsg] of [debug.h] is missing.  It logs a
    diagnostic: the formatted message is added to the log. *)
Definition debugmsg (msg : string) (s : state) : state :=
  mk_state (submaps s) (cached s) (cache_pos s) (cache_size s) (heap s)
           (null_mz_submap s) (disk s) (debug_log s ++ [msg]) (base_save_path s).

(** Modelled from the spec: the class is declared in [map_memory.h], which
    is missing.  A map_memory that has not prepared any region, in a given
    world: no chunk is tracked, and the window is empty, with its origin
    and its size at the zero of [tripoint] and [point]. *)
Definition fresh_map_memory (d : filesystem) (base : string) : state :=
  mk_state ∅ [] (tripoint.mk 0 0 0) (point.mk 0 0) ∅ new_memorized_submap d [] base.

(** [for( int i = 0; i < n; i++ ) body]: the body does not change [n]. *)
Fixpoint for_loop_from (k : nat) (i : Z) (body : Z → state → state) (s : state) : state :=
  match k with
  | O => s
  | S k' => for_loop_from k' (i + 1) body (body i s)
  end.

Definition for_loop (n : Z) (body : Z → state → state) (s : state) : state :=
  for_loop_from (Z.to_nat n) 0 body s.

(** ** Paths *)

(** [g->get_player_base_save_path() + SAVE_EXTENSION_MAP_MEMORY] *)
Definition find_legacy_mm_file (s : state) : string :=
  base_save_path s +:+ SAVE_EXTENSION_MAP_MEMORY.

(** [string_format( "%s.mm1", ... )] *)
Definition find_mm_dir (s : state) : string :=
  base_save_path s +:+ ".mm1".

(** [string_format( "%s/%d.%d.%d.mm", dirname, p.x, p.y, p.z )] *)
Definition find_submap_path (dirname : string) (p : tripoint.t) : string :=
  dirname +:+ "/" +:+ pretty (tripoint.x p) +:+ "." +:+ pretty (tripoint.y p)
          +:+ "." +:+ pretty (tripoint.z p) +:+ ".mm".

(** Modelled from the spec: [dir_exist] and [file_exist] of [filesystem.h]
    are missing.  They tell whether the directory, or the file, is there. *)
Definition dir_exist (d : string) (s : state) : bool := bool_decide (d ∈ dirs (disk s)).
Definition file_exist (f : string) (s : state) : bool :=
  bool_decide (is_Some (files (disk s) !! f)).

(** ** Serialization *)

(** The JSON readers and writers are in other files.  [deserialize_submap]
    is [memorized_submap::deserialize] on the text of a chunk file,
    [serialize_submap] is the text [memorized_submap::serialize] writes;
    [deserialize_legacy] is what the reader of the legacy file makes of its
    text: the remembered chunks, each under its coordinate.  A reader
    returns the exception it throws on text it cannot parse. *)
Variable deserialize_submap : string → exn + memorized_submap.
Variable serialize_submap : memorized_submap → string.
Variable deserialize_legacy : string → exn + list (tripoint.t * memorized_submap).

(** ** Chunk store *)

(** [std::map::insert]: an existing entry is kept. *)
Definition map_insert_new (k : tripoint.t) (v : ptr) (m : gmap tripoint.t ptr) :
    gmap tripoint.t ptr :=
  match m !! k with
  | Some _ => m
  | None => <[k := v]> m
  end.

(** [make_shared_fast<memorized_submap>()] with the given content: a new
    object at an address not in use. *)
Definition make_shared (m : memorized_submap) (s : state) : ptr * state :=
  let p := fresh (dom (heap s)) in
  (p, set_heap (insert p m) s).

(** [map_memory::allocate_submap] *)
Definition allocate_submap (s : state) : ptr * state :=
  make_shared new_memorized_submap s.

(** The last owner of the object at [p] goes out of scope. *)
Definition release (p : ptr) (s : state) : state := set_heap (delete p) s.

(** Modelled from the spec: [read_from_file_optional_json] of
    [cata_utility.h] is missing.  On a missing file it returns false and
    does not call the loader ([None]); otherwise it runs the loader on the
    text of the file ([Some text]) and returns true, and an exception of the
    loader goes through to the caller. *)
Definition read_from_file_optional_json (path : string) (s : state) : option string :=
  files (disk s) !! path.

(** [map_memory::load_submap]; [nullptr] is [None].  The loader allocates
    the submap, then deserializes into it; when that throws, the handler
    logs the message and the submap, owned by the local [sm] alone, is
    released on return. *)
Definition load_submap (sm_pos : tripoint.t) (s : state) : option ptr * state :=
  let dirname := find_mm_dir s in
  let path := find_submap_path dirname sm_pos in
  if negb (dir_exist dirname s) then (None, s)
  else
    match read_from_file_optional_json path s with
    | None => (None, s)
    | Some text =>
        let '(p, s1) := allocate_submap s in
        match deserialize_submap text with
        | inr m => (Some p, set_heap (insert p m) s1)
        | inl what =>
            (None,
             debugmsg ("Failed to load memory submap (" +:+ pretty (tripoint.x sm_pos)
                       +:+ "," +:+ pretty (tripoint.y sm_pos)
                       +:+ "," +:+ pretty (tripoint.z sm_pos) +:+ "): " +:+ what)
                      (release p s1))
        end
    end.

(** [map_memory::fetch_submap] *)
Definition fetch_submap (sm_pos : tripoint.t) (s : state) : ptr * state :=
  match submaps s !! sm_pos with
  | None =>
      let '(o, s1) := load_submap sm_pos s in
      let '(sm1, s2) :=
        match o with
        | Some p => (p, s1)
        | None => allocate_submap s1
        end in
      (sm1, set_submaps (map_insert_new sm_pos sm1) s2)
  | Some p => (p, s)
  end.

(** ** Window cache *)

(** What [get_submap] returns a reference to: a cell of the window, or the
    static [null_mz_submap]. *)
Inductive submap_ref : Type :=
| ref_cached (p : ptr)
| ref_null.

(** [map_memory::get_submap] (the const and the non-const one have the same
    body). *)
Definition get_submap (sm_pos : tripoint.t) (s : state) : option submap_ref :=
  let idx := tripoint.xy (tripoint.sub sm_pos (cache_pos s)) in
  if (0 <? point.x idx) && (0 <? point.y idx)
     && (point.x idx <? point.x (cache_size s))
     && (point.y idx <? point.y (cache_size s))
  then ref_cached <$> cached s !! Z.to_nat (point.y idx * point.x (cache_size s) + point.x idx)
  else Some ref_null.

(** Reading and writing through the reference. *)
Definition read_ref (r : submap_ref) (s : state) : option memorized_submap :=
  match r with
  | ref_cached p => heap s !! p
  | ref_null => Some (null_mz_submap s)
  end.

Definition write_ref (r : submap_ref) (m : memorized_submap) (s : state) : option state :=
  match r with
  | ref_cached p =>
      if bool_decide (is_Some (heap s !! p)) then Some (set_heap (insert p m) s) else None
  | ref_null => Some (set_null_mz_submap m s)
  end.

(** [map_memory::get_tile] *)
Definition get_tile (pos : tripoint.t) (s : state) : option memorized_terrain_tile :=
  let p := coord_pair_of pos in
  r ← get_submap (sm p) s;
  m ← read_ref r s;
  grid_get (tiles m) (point.x (loc p)) (point.y (loc p)).

(** [map_memory::memorize_tile] *)
Definition memorize_tile (pos : tripoint.t) (ter : string) (subtile rotation : Z)
    (s : state) : option state :=
  let p := coord_pair_of pos in
  r ← get_submap (sm p) s;
  m ← read_ref r s;
  t ← grid_set (tiles m) (point.x (loc p)) (point.y (loc p)) (mk_tile ter subtile rotation);
  write_ref r (mk_submap t (symbols m)) s.

(** [map_memory::get_symbol] *)
Definition get_symbol (pos : tripoint.t) (s : state) : option Z :=
  let p := coord_pair_of pos in
  r ← get_submap (sm p) s;
  m ← read_ref r s;
  grid_get (symbols m) (point.x (loc p)) (point.y (loc p)).

(** [map_memory::memorize_symbol] *)
Definition memorize_symbol (pos : tripoint.t) (symbol : Z) (s : state) : option state :=
  let p := coord_pair_of pos in
  r ← get_submap (sm p) s;
  m ← read_ref r s;
  y ← grid_set (symbols m) (point.x (loc p)) (point.y (loc p)) symbol;
  write_ref r (mk_submap (tiles m) y) s.

(** [map_memory::clear_memorized_tile] *)
Definition clear_memorized_tile (pos : tripoint.t) (s : state) : option state :=
  let p := coord_pair_of pos in
  r ← get_submap (sm p) s;
  m ← read_ref r s;
  y ← grid_set (symbols m) (point.x (loc p)) (point.y (loc p)) default_symbol;
  t ← grid_set (tiles m) (point.x (loc p)) (point.y (loc p)) default_tile;
  write_ref r (mk_submap t y) s.

(** The body of the inner loop of [prepare_region]:
    [cached.push_back( fetch_submap( cache_pos + point( dx, dy ) ) )]. *)
Definition push_fetched (dx dy : Z) (s : state) : state :=
  let '(p, s1) := fetch_submap (tripoint.add_point (cache_pos s) (point.mk dx dy)) s in
  set_cached (λ c, c ++ [p]) s1.

(** [map_memory::prepare_region] *)
Definition prepare_region (p1 p2 : tripoint.t) (s : state) : option state :=
  if negb (tripoint.z p1 =? tripoint.z p2) then None
  else if negb ((tripoint.x p1 <=? tripoint.x p2) && (tripoint.y p1 <=? tripoint.y p2))
  then None
  else
    let sm_pos := tripoint.sub_point (sm (coord_pair_of p1)) (point.mk 1 1) in
    let sm_size :=
      point.add (tripoint.xy (tripoint.sub (sm (coord_pair_of p2)) sm_pos)) (point.mk 1 1) in
    if bool_decide (sm_pos = cache_pos s) && bool_decide (sm_size = cache_size s)
    then Some s
    else
      let s1 := set_cached (λ _, []) (set_cache_size sm_size (set_cache_pos sm_pos s)) in
      Some (for_loop (point.y (cache_size s1))
              (λ dy, for_loop (point.x (cache_size s1)) (λ dx, push_fetched dx dy))
              s1).

(** ** Persistence *)

(** Modelled from the spec: [map_memory::load_legacy] is in another file.
    It populates the chunk store directly with the chunks of the legacy
    file, each a new object registered under its coordinate. *)
Definition register_legacy (e : tripoint.t * memorized_submap) (s : state) : state :=
  let '(p, s1) := make_shared e.2 s in
  set_submaps (map_insert_new e.1 p) s1.

Definition load_legacy (l : list (tripoint.t * memorized_submap)) (s : state) : state :=
  foldl (λ st e, register_legacy e st) s l.

(** [map_memory::load] *)
Definition load (pos : tripoint.t) (s : state) : state :=
  let dirname := find_mm_dir s in
  if negb (dir_exist dirname s) then
    let legacy_file := find_legacy_mm_file s in
    if file_exist legacy_file s then
      match read_from_file_optional_json legacy_file s with
      | None => s
      | Some text =>
          match deserialize_legacy text with
          | inr l => load_legacy l s
          | inl what => debugmsg ("Failed to load legacy memory map file: " +:+ what) s
          end
      end
    else s
  else
    let p := coord_pair_of pos in
    let start := tripoint.sub (sm p) (tripoint.mk (MM_SIZE `quot` 2) (MM_SIZE `quot` 2) 0) in
    for_loop MM_SIZE
      (λ dy, for_loop MM_SIZE
         (λ dx st, (fetch_submap (tripoint.add start (tripoint.mk dx dy 0)) st).2))
      s.

(** Modelled from the spec: [assure_dir_exist] of [filesystem.h] is
    missing.  It ensures that the directory exists: true when it is there or
    could be made, false when it could not be created. *)
Definition assure_dir_exist (d : string) (s : state) : bool * state :=
  if dir_exist d s then (true, s)
  else if mkdir_ok (disk s) d
  then (true, set_disk (λ f, mk_fs ({[d]} ∪ dirs f) (files f) (mkdir_ok f) (write_ok f)) s)
  else (false, s).

(** Modelled from the spec: [write_to_file] of [cata_utility.h] is missing.
    It writes the text to the file, over an existing one: true when the
    text was written, false when it could not be; a failed write leaves the
    files as they were. *)
Definition write_to_file (path text : string) (s : state) : bool * state :=
  if write_ok (disk s) path
  then (true, set_disk (λ f, mk_fs (dirs f) (<[path := text]> (files f))
                                    (mkdir_ok f) (write_ok f)) s)
  else (false, s).

(** The loop of [save] over the entries of [submaps]; the result of
    [write_to_file] is dropped.  A [std::map] gives its entries in the order
    of the keys, for which the order of [map_to_list] stands: each entry is
    written to the file of its own coordinate. *)
Fixpoint save_entries (dirname : string) (l : list (tripoint.t * ptr)) (s : state) :
    option state :=
  match l with
  | [] => Some s
  | (sm_pos, p) :: l' =>
      let path := find_submap_path dirname sm_pos in
      m ← heap s !! p;
      save_entries dirname l' (write_to_file path (serialize_submap m) s).2
  end.

(** [map_memory::save]; the result of [assure_dir_exist] is dropped, and
    the only [return] is [return true]. *)
Definition save (s : state) : option (bool * state) :=
  let dirname := find_mm_dir s in
  let s1 := (assure_dir_exist dirname s).2 in
  s2 ← save_entries dirname (map_to_list (submaps s1)) s1;
  Some (true, s2).

(** ** Notions of the specification *)

(** The index of a chunk relative to the origin of the window. *)
Definition window_index (sm_pos : tripoint.t) (s : state) : point.t :=
  tripoint.xy (tripoint.sub sm_pos (cache_pos s)).

(** The index lies within [0, size) on both axes. *)
Definition in_window (sm_pos : tripoint.t) (s : state) : Prop :=
  0 ≤ point.x (window_index sm_pos s) < point.x (cache_size s) ∧
  0 ≤ point.y (window_index sm_pos s) < point.y (cache_size s).

#[global] Instance in_window_dec (sm_pos : tripoint.t) (s : state) :
  Decision (in_window sm_pos s).
Proof. unfold in_window. apply _. Defined.

(** The coordinates of a window in row-major order: the rows one after the
    other by increasing y, each row by increasing x. *)
Definition window_row (origin : tripoint.t) (nx dy : Z) : list tripoint.t :=
  (λ dx, tripoint.add_point origin (point.mk dx dy)) <$> seqZ 0 nx.

Definition window_coords (origin : tripoint.t) (size : point.t) : list tripoint.t :=
  mjoin (window_row origin (point.x size) <$> seqZ 0 (point.y size)).

(** The invariant of the window: the cells are the chunks the store holds
    for the coordinates of the window, in row-major order. *)
Definition window_wf (s : state) : Prop :=
  Some <$> cached s =
  (λ k, submaps s !! k) <$> window_coords (cache_pos s) (cache_size s).

#[global] Instance window_wf_dec (s : state) : Decision (window_wf s).
Proof. unfold window_wf. apply _. Defined.

(** Fetching the chunks of a list of coordinates, one after the other. *)
Fixpoint fetch_all (l : list tripoint.t) (s : state) : list ptr * state :=
  match l with
  | [] => ([], s)
  | k :: l' =>
      let '(p, s1) := fetch_submap k s in
      let '(ps, s2) := fetch_all l' s1 in
      (p :: ps, s2)
  end.

(** The window that [prepare_region] computes for a rectangle. *)
Definition region_origin (p1 : tripoint.t) : tripoint.t :=
  tripoint.sub_point (sm (coord_pair_of p1)) (point.mk 1 1).

Definition region_size (p1 p2 : tripoint.t) : point.t :=
  point.add (point.sub (tripoint.xy (sm (coord_pair_of p2))) (tripoint.xy (region_origin p1)))
            (point.mk 1 1).

(** A state with the window replaced. *)
Definition with_window (origin : tripoint.t) (size : point.t) (c : list ptr)
    (s : state) : state :=
  set_cached (λ _, c) (set_cache_size size (set_cache_pos origin s)).

(** The message [load_submap] logs when the file of [sm_pos] does not parse. *)
Definition load_failure_message (sm_pos : tripoint.t) (what : exn) : string :=
  "Failed to load memory submap (" +:+ pretty (tripoint.x sm_pos)
    +:+ "," +:+ pretty (tripoint.y sm_pos)
    +:+ "," +:+ pretty (tripoint.z sm_pos) +:+ "): " +:+ what.

(** ** Invariant of the memory *)

(** The test of [get_submap]: the index of the chunk is 1 or more and below
    the size on both axes, so that the lookup answers with a cell. *)
Definition in_cells (sm_pos : tripoint.t) (s : state) : Prop :=
  0 < point.x (window_index sm_pos s) < point.x (cache_size s) ∧
  0 < point.y (window_index sm_pos s) < point.y (cache_size s).

#[global] Instance in_cells_dec (sm_pos : tripoint.t) (s : state) :
  Decision (in_cells sm_pos s).
Proof. unfold in_cells. apply _. Defined.

(** Every tracked chunk is a live object. *)
Definition store_live (s : state) : Prop :=
  ∀ k p, submaps s !! k = Some p → is_Some (heap s !! p).

(** No two coordinates share a chunk. *)
Definition store_inj (s : state) : Prop :=
  ∀ k k' p, submaps s !! k = Some p → submaps s !! k' = Some p → k = k'.

Definition memory_inv (s : state) : Prop :=
  window_wf s ∧ store_live s ∧ store_inj s.

(** The chunk [m] with one entry replaced, as [grid_set] leaves it. *)
Definition with_tile (i j : Z) (v : memorized_terrain_tile) (m : memorized_submap) :
    memorized_submap :=
  mk_submap (λ i' j', if (i' =? i) && (j' =? j) then v else tiles m i' j') (symbols m).

Definition with_symbol (i j : Z) (v : Z) (m : memorized_submap) : memorized_submap :=
  mk_submap (tiles m) (λ i' j', if (i' =? i) && (j' =? j) then v else symbols m i' j').

#[global] Instance submap_ref_eq_dec : EqDecision submap_ref.
Proof. solve_decision. Defined.

(** The state after the object behind a reference has been replaced. *)
Definition with_object (r : submap_ref) (m : memorized_submap) (s : state) : state :=
  match r with
  | ref_cached p => set_heap (insert p m) s
  | ref_null => set_null_mz_submap m s
  end.


(** ** Text of the paths *)

(** The string has no full stop. *)
Fixpoint dotless (s : string) : bool :=
  match s with
  | EmptyString => true
  | String c r => negb (Ascii.eqb c "."%char) && dotless r
  end.

(** ** Example worlds *)

(** A chunk that remembers one tile, ("t_floor", 2, 1) at local (5,5). *)
Definition floor_chunk : memorized_submap :=
  mk_submap (λ i j, if (i =? 5) && (j =? 5) then mk_tile "t_floor" 2 1 else default_tile)
            (λ _ _, default_symbol).

(** Readers and a writer for the examples: every chunk file holds
    [floor_chunk], except the text "garbage", and the legacy file holds that
    chunk under (0,0,0). *)
Definition example_deserialize_submap (text : string) : exn + memorized_submap :=
  if bool_decide (text = "garbage") then inl "unexpected end of input" else inr floor_chunk.

Definition example_serialize_submap (m : memorized_submap) : string := "chunk".

Definition example_deserialize_legacy (text : string) :
    exn + list (tripoint.t * memorized_submap) :=
  inr [(tripoint.mk 0 0 0, floor_chunk)].

(** An old save: no chunk directory, only the legacy file. *)
Definition legacy_disk : filesystem :=
  mk_fs ∅ {[ "save.mm" := "legacy" ]} (λ _, true) (λ _, true).

(** A new save whose chunk directory holds a file for (0,0,0) that parses
    and one for (1,0,0) that does not. *)
Definition chunk_disk : filesystem :=
  mk_fs {[ "save.mm1" ]}
        {[ "save.mm1/0.0.0.mm" := "chunk"; "save.mm1/1.0.0.mm" := "garbage" ]}
        (λ _, true) (λ _, true).

(** A disk that is full: no directory can be made, no file written. *)
Definition full_disk : filesystem := mk_fs ∅ ∅ (λ _, false) (λ _, false).

(** A window of two by two chunks at the origin, as [prepare_region] builds
    it, on a full disk. *)
Definition small_window : state :=
  mk_state {[ tripoint.mk 0 0 0 := 0%nat; tripoint.mk 1 0 0 := 1%nat;
              tripoint.mk 0 1 0 := 2%nat; tripoint.mk 1 1 0 := 3%nat ]}
           [0; 1; 2; 3]%nat (tripoint.mk 0 0 0) (point.mk 2 2)
           {[ 0%nat := new_memorized_submap; 1%nat := new_memorized_submap;
              2%nat := new_memorized_submap; 3%nat := new_memorized_submap ]}
           new_memorized_submap full_disk [] "save".

(** The same window on a disk that can be written, with the chunk at
    (1,1,0) remembering the tile of [floor_chunk]. *)
Definition floor_window : state :=
  mk_state (submaps small_window) (cached small_window) (cache_pos small_window)
           (cache_size small_window) (<[3%nat := floor_chunk]> (heap small_window))
           new_memorized_submap legacy_disk [] "save".


(** * Properties *)

(** ** Coordinate mapper *)

Hypothesis SEEX_pos : 0 < SEEX.

Lemma coord_pair_sm (p : tripoint.t) :
  sm (coord_pair_of p) =
  tripoint.mk (tripoint.x p `div` SEEX) (tripoint.y p `div` SEEX) (tripoint.z p).
Proof. reflexivity. Qed.

Lemma coord_pair_loc (p : tripoint.t) :
  loc (coord_pair_of p) = point.mk (tripoint.x p `mod` SEEX) (tripoint.y p `mod` SEEX).
Proof. reflexivity. Qed.

Lemma coord_pair_loc_in_bounds (p : tripoint.t) :
  in_bounds (point.x (loc (coord_pair_of p))) = true ∧
  in_bounds (point.y (loc (coord_pair_of p))) = true.
Proof.
  rewrite coord_pair_loc. unfold in_bounds. simpl.
  pose proof (Z.mod_pos_bound (tripoint.x p) SEEX SEEX_pos).
  pose proof (Z.mod_pos_bound (tripoint.y p) SEEX SEEX_pos).
  split; apply andb_true_intro; split; (apply Z.leb_le || apply Z.ltb_lt); lia.
Qed.

(** C4: for every world position [p], negative coordinates included, the
    chunk and the local offset of [p] give [p] back,
    [chunk * SEEX + local = p] on x and y, the local offset lies in
    [0, SEEX) on both axes, and the chunk has the level of [p]. *)
Theorem coord_pair_reconstructs (p : tripoint.t) :
  let c := coord_pair_of p in
  tripoint.x (sm c) * SEEX + point.x (loc c) = tripoint.x p ∧
  tripoint.y (sm c) * SEEX + point.y (loc c) = tripoint.y p ∧
  0 ≤ point.x (loc c) < SEEX ∧
  0 ≤ point.y (loc c) < SEEX ∧
  tripoint.z (sm c) = tripoint.z p.
Proof.
  intros c. subst c. rewrite coord_pair_sm, coord_pair_loc. simpl.
  pose proof (Z.mod_pos_bound (tripoint.x p) SEEX SEEX_pos).
  pose proof (Z.mod_pos_bound (tripoint.y p) SEEX SEEX_pos).
  pose proof (Z.div_mod (tripoint.x p) SEEX).
  pose proof (Z.div_mod (tripoint.y p) SEEX).
  repeat split; lia.
Qed.

(** ** What the chunk store keeps *)

Lemma fresh_not_in_heap (s : state) : heap s !! fresh (dom (heap s)) = None.
Proof. apply not_elem_of_dom, is_fresh. Qed.

Lemma load_submap_frame (k : tripoint.t) (s : state) :
  let s1 := (load_submap k s).2 in
  submaps s1 = submaps s ∧ cached s1 = cached s ∧ cache_pos s1 = cache_pos s ∧
  cache_size s1 = cache_size s ∧ null_mz_submap s1 = null_mz_submap s ∧
  disk s1 = disk s ∧ base_save_path s1 = base_save_path s.
Proof.
  unfold load_submap, read_from_file_optional_json.
  destruct (negb _); [done|].
  destruct (files _ !! _); [|done].
  simpl. destruct (deserialize_submap _); done.
Qed.

Lemma load_submap_heap (k : tripoint.t) (s : state) (q : ptr) (m : memorized_submap) :
  heap s !! q = Some m → heap (load_submap k s).2 !! q = Some m.
Proof.
  intros Hq. unfold load_submap, read_from_file_optional_json.
  destruct (negb _); [done|].
  destruct (files _ !! _); [|done].
  pose proof (fresh_not_in_heap s) as Hp.
  assert (fresh (dom (heap s)) ≠ q) by congruence.
  unfold allocate_submap, make_shared.
  destruct (deserialize_submap _); simpl.
  - rewrite lookup_delete_ne, lookup_insert_ne by done. done.
  - rewrite !lookup_insert_ne by done. done.
Qed.

(** ** Loading one chunk *)

(** C8: [load_submap] returns "not found" ([nullptr]) and leaves the state
    alone when the chunk directory is absent or the file of the chunk is
    missing; when parsing the file throws, it returns "not found" too and
    its only trace is one line in the debug log, which gives the coordinate
    and the message of the exception; when the file parses, it returns a
    newly allocated chunk that holds the parsed data. *)
Theorem load_submap_outcomes (sm_pos : tripoint.t) (s : state) :
  let path := find_submap_path (find_mm_dir s) sm_pos in
  (dir_exist (find_mm_dir s) s = false → load_submap sm_pos s = (None, s)) ∧
  (dir_exist (find_mm_dir s) s = true → files (disk s) !! path = None →
     load_submap sm_pos s = (None, s)) ∧
  (∀ text what,
     dir_exist (find_mm_dir s) s = true → files (disk s) !! path = Some text →
     deserialize_submap text = inl what →
     load_submap sm_pos s = (None, debugmsg (load_failure_message sm_pos what) s)) ∧
  (∀ text m,
     dir_exist (find_mm_dir s) s = true → files (disk s) !! path = Some text →
     deserialize_submap text = inr m →
     ∃ p, load_submap sm_pos s = (Some p, set_heap (insert p m) s) ∧
          heap s !! p = None).
Proof.
  intros path. subst path. unfold load_submap, read_from_file_optional_json.
  pose proof (fresh_not_in_heap s) as Hp.
  repeat split.
  - intros ->. done.
  - intros -> ->. done.
  - intros text what -> -> Hd. simpl. rewrite Hd.
    f_equal. unfold release, debugmsg, set_heap, load_failure_message. simpl.
    rewrite delete_insert_eq, delete_id by done.
    done.
  - intros text m -> -> Hd. simpl. rewrite Hd.
    exists (fresh (dom (heap s))). split; [|done].
    f_equal. unfold set_heap. simpl. by rewrite insert_insert_eq.
Qed.

(** ** Fetching from the chunk store *)

Lemma map_insert_new_lookup (k : tripoint.t) (p : ptr) (m : gmap tripoint.t ptr) :
  m !! k = None → map_insert_new k p m = <[k := p]> m.
Proof. intros H. unfold map_insert_new. by rewrite H. Qed.

Lemma fetch_submap_hit (k : tripoint.t) (p : ptr) (s : state) :
  submaps s !! k = Some p → fetch_submap k s = (p, s).
Proof. intros H. unfold fetch_submap. by rewrite H. Qed.

Lemma fetch_submap_miss (k : tripoint.t) (s : state) :
  submaps s !! k = None →
  ∃ s2, fetch_submap k s = ((fetch_submap k s).1, set_submaps (insert k (fetch_submap k s).1) s2) ∧
        submaps s2 = submaps s ∧
        (s2 = (load_submap k s).2 ∧ (load_submap k s).1 = Some (fetch_submap k s).1
         ∨ (load_submap k s).1 = None ∧
           s2 = (allocate_submap (load_submap k s).2).2 ∧
           (fetch_submap k s).1 = (allocate_submap (load_submap k s).2).1).
Proof.
  intros H. unfold fetch_submap. rewrite H.
  pose proof (load_submap_frame k s) as (Hs & _).
  destruct (load_submap k s) as [[q|] s1]; simpl in *.
  - exists s1. unfold set_submaps.
    rewrite map_insert_new_lookup by congruence. auto.
  - exists (allocate_submap s1).2.
    unfold allocate_submap, make_shared, set_submaps. simpl.
    rewrite map_insert_new_lookup by congruence.
    split; [done|]. split; [done|]. right. done.
Qed.

Lemma fetch_submap_registers (k : tripoint.t) (s : state) :
  submaps (fetch_submap k s).2 !! k = Some (fetch_submap k s).1.
Proof.
  destruct (submaps s !! k) as [p|] eqn:H.
  - by rewrite (fetch_submap_hit k p s H).
  - destruct (fetch_submap_miss k s H) as (s2 & -> & _). simpl.
    apply lookup_insert_eq.
Qed.

Lemma fetch_submap_keeps (k k' : tripoint.t) (q : ptr) (s : state) :
  submaps s !! k' = Some q → submaps (fetch_submap k s).2 !! k' = Some q.
Proof.
  intros Hq. destruct (submaps s !! k) as [p|] eqn:H.
  - by rewrite (fetch_submap_hit k p s H).
  - destruct (fetch_submap_miss k s H) as (s2 & -> & Hs & _). simpl.
    rewrite lookup_insert_ne by congruence. by rewrite Hs.
Qed.

Lemma fetch_submap_frame (k : tripoint.t) (s : state) :
  let s1 := (fetch_submap k s).2 in
  cached s1 = cached s ∧ cache_pos s1 = cache_pos s ∧
  cache_size s1 = cache_size s ∧ null_mz_submap s1 = null_mz_submap s ∧
  disk s1 = disk s ∧ base_save_path s1 = base_save_path s.
Proof.
  unfold fetch_submap.
  destruct (submaps s !! k); [done|].
  pose proof (load_submap_frame k s) as (_ & ? & ? & ? & ? & ? & ?).
  destruct (load_submap k s) as [[q|] s1]; simpl in *; done.
Qed.

Lemma fetch_submap_heap (k : tripoint.t) (s : state) (q : ptr) (m : memorized_submap) :
  heap s !! q = Some m → heap (fetch_submap k s).2 !! q = Some m.
Proof.
  intros Hq. unfold fetch_submap.
  destruct (submaps s !! k); [done|].
  pose proof (load_submap_heap k s q m Hq) as Hl.
  destruct (load_submap k s) as [[p|] s1]; simpl in *; [done|].
  pose proof (fresh_not_in_heap s1).
  rewrite lookup_insert_ne by congruence. done.
Qed.

Lemma fetch_all_keeps (l : list tripoint.t) (k : tripoint.t) (q : ptr) (s : state) :
  submaps s !! k = Some q → submaps (fetch_all l s).2 !! k = Some q.
Proof.
  revert s. induction l as [|k' l IH]; intros s Hq; [done|].
  simpl. pose proof (fetch_submap_keeps k' k q s Hq) as H1.
  destruct (fetch_submap k' s) as [p s1]. simpl in H1.
  specialize (IH s1 H1). destruct (fetch_all l s1). done.
Qed.


(** ** Looking up the window *)

Lemma get_submap_null (sm_pos : tripoint.t) (s : state) :
  ¬ (0 < point.x (window_index sm_pos s) < point.x (cache_size s) ∧
     0 < point.y (window_index sm_pos s) < point.y (cache_size s)) →
  get_submap sm_pos s = Some ref_null.
Proof.
  intros H. unfold get_submap. fold (window_index sm_pos s).
  destruct (_ && _) eqn:E; [|done].
  exfalso. apply H.
  repeat (apply andb_prop in E as [E ?]).
  rewrite !Z.ltb_lt in *. lia.
Qed.

Lemma get_submap_cached (sm_pos : tripoint.t) (s : state) :
  0 < point.x (window_index sm_pos s) < point.x (cache_size s) →
  0 < point.y (window_index sm_pos s) < point.y (cache_size s) →
  get_submap sm_pos s =
  ref_cached <$> cached s !! Z.to_nat (point.y (window_index sm_pos s) * point.x (cache_size s)
                                       + point.x (window_index sm_pos s)).
Proof.
  intros Hx Hy. unfold get_submap. fold (window_index sm_pos s).
  destruct (_ && _) eqn:E; [done|].
  exfalso.
  repeat (apply andb_false_iff in E as [E|E]); rewrite Z.ltb_ge in E; lia.
Qed.



(** ** Saving *)



Lemma save_returns_true (s : state) (r : bool * state) :
  save s = Some r → r.1 = true.
Proof.
  unfold save. destruct (save_entries _ _ _); simpl; [|done].
  by intros [= <-].
Qed.



(** ** Rebuilding the window *)

Lemma fetch_all_cons (k : tripoint.t) (l : list tripoint.t) (s : state) :
  fetch_all (k :: l) s =
  ((fetch_submap k s).1 :: (fetch_all l (fetch_submap k s).2).1,
   (fetch_all l (fetch_submap k s).2).2).
Proof.
  simpl. destruct (fetch_submap k s) as [p s1]. simpl.
  by destruct (fetch_all l s1).
Qed.

Lemma fetch_all_app (l1 l2 : list tripoint.t) (s : state) :
  fetch_all (l1 ++ l2) s =
  ((fetch_all l1 s).1 ++ (fetch_all l2 (fetch_all l1 s).2).1,
   (fetch_all l2 (fetch_all l1 s).2).2).
Proof.
  revert s. induction l1 as [|k l1 IH]; intros s.
  - simpl. by destruct (fetch_all l2 s).
  - rewrite <- app_comm_cons, !fetch_all_cons, IH. done.
Qed.

Lemma load_submap_with_window (o : tripoint.t) (sz : point.t) (c : list ptr)
    (k : tripoint.t) (s : state) :
  load_submap k (with_window o sz c s) =
  ((load_submap k s).1, with_window o sz c (load_submap k s).2).
Proof.
  unfold load_submap, read_from_file_optional_json, dir_exist, find_mm_dir. simpl.
  destruct (negb _); [done|].
  destruct (files _ !! _); [|done].
  simpl. by destruct (deserialize_submap _).
Qed.

Lemma fetch_submap_with_window (o : tripoint.t) (sz : point.t) (c : list ptr)
    (k : tripoint.t) (s : state) :
  fetch_submap k (with_window o sz c s) =
  ((fetch_submap k s).1, with_window o sz c (fetch_submap k s).2).
Proof.
  unfold fetch_submap. rewrite load_submap_with_window. simpl.
  destruct (submaps s !! k); [done|].
  destruct (load_submap k s) as [[p|] s1]; done.
Qed.

Lemma push_fetched_with_window (o : tripoint.t) (sz : point.t) (c : list ptr)
    (dx dy : Z) (s : state) :
  push_fetched dx dy (with_window o sz c s) =
  with_window o sz (c ++ [(fetch_submap (tripoint.add_point o (point.mk dx dy)) s).1])
              (fetch_submap (tripoint.add_point o (point.mk dx dy)) s).2.
Proof.
  unfold push_fetched. simpl cache_pos. by rewrite fetch_submap_with_window.
Qed.

Lemma for_loop_row (o : tripoint.t) (sz : point.t) (dy : Z) (k : nat) :
  ∀ (i : Z) (c : list ptr) (s : state),
  let row := (λ dx, tripoint.add_point o (point.mk dx dy)) <$> seqZ i (Z.of_nat k) in
  for_loop_from k i (λ dx, push_fetched dx dy) (with_window o sz c s) =
  with_window o sz (c ++ (fetch_all row s).1) (fetch_all row s).2.
Proof.
  induction k as [|k IH]; intros i c s.
  - simpl. by rewrite app_nil_r.
  - intros row. subst row.
    rewrite seqZ_cons by lia.
    replace (Z.pred (Z.of_nat (S k))) with (Z.of_nat k) by lia.
    rewrite fmap_cons, fetch_all_cons. simpl for_loop_from.
    rewrite push_fetched_with_window, IH. simpl fst. simpl snd.
    rewrite <- app_assoc. replace (Z.succ i) with (i + 1) by lia. done.
Qed.

Lemma seqZ_to_nat (m n : Z) : seqZ m (Z.of_nat (Z.to_nat n)) = seqZ m n.
Proof. unfold seqZ. by rewrite Nat2Z.id. Qed.

Lemma for_loop_rows (o : tripoint.t) (sz : point.t) (nx : Z) (k : nat) :
  ∀ (j : Z) (c : list ptr) (s : state),
  let rows := mjoin (window_row o nx <$> seqZ j (Z.of_nat k)) in
  for_loop_from k j (λ dy, for_loop nx (λ dx, push_fetched dx dy)) (with_window o sz c s) =
  with_window o sz (c ++ (fetch_all rows s).1) (fetch_all rows s).2.
Proof.
  induction k as [|k IH]; intros j c s.
  - simpl. by rewrite app_nil_r.
  - intros rows. subst rows.
    rewrite seqZ_cons by lia.
    replace (Z.pred (Z.of_nat (S k))) with (Z.of_nat k) by lia.
    rewrite fmap_cons. simpl for_loop_from. unfold for_loop at 2.
    rewrite for_loop_row, seqZ_to_nat. fold (window_row o nx j).
    rewrite IH. change (mjoin (?l :: ?ls)) with (l ++ mjoin ls).
    rewrite fetch_all_app. simpl fst. simpl snd.
    rewrite <- app_assoc. replace (Z.succ j) with (j + 1) by lia. done.
Qed.

Lemma prepare_region_rebuilds (p1 p2 : tripoint.t) (s : state) :
  tripoint.z p1 = tripoint.z p2 →
  tripoint.x p1 ≤ tripoint.x p2 → tripoint.y p1 ≤ tripoint.y p2 →
  ¬ (cache_pos s = region_origin p1 ∧ cache_size s = region_size p1 p2) →
  let r := fetch_all (window_coords (region_origin p1) (region_size p1 p2)) s in
  prepare_region p1 p2 s =
  Some (with_window (region_origin p1) (region_size p1 p2) r.1 r.2).
Proof.
  intros Hz Hx Hy Hne r. subst r. unfold prepare_region.
  rewrite (proj2 (Z.eqb_eq _ _) Hz), (proj2 (Z.leb_le _ _) Hx), (proj2 (Z.leb_le _ _) Hy).
  simpl negb. cbv iota.
  fold (region_origin p1).
  change (point.add _ (point.mk 1 1)) with (region_size p1 p2).
  destruct (bool_decide (region_origin p1 = cache_pos s) &&
            bool_decide (region_size p1 p2 = cache_size s)) eqn:E.
  { exfalso. apply Hne. apply andb_prop in E as [E1 E2].
    apply bool_decide_eq_true in E1, E2. done. }
  f_equal. unfold for_loop at 1.
  change (set_cached (λ _, []) (set_cache_size ?sz (set_cache_pos ?o s)))
    with (with_window o sz [] s).
  simpl cache_size.
  rewrite for_loop_rows, seqZ_to_nat. done.
Qed.

Lemma prepare_region_same (p1 p2 : tripoint.t) (s : state) :
  tripoint.z p1 = tripoint.z p2 →
  tripoint.x p1 ≤ tripoint.x p2 → tripoint.y p1 ≤ tripoint.y p2 →
  cache_pos s = region_origin p1 → cache_size s = region_size p1 p2 →
  prepare_region p1 p2 s = Some s.
Proof.
  intros Hz Hx Hy Ho Hs. unfold prepare_region.
  rewrite (proj2 (Z.eqb_eq _ _) Hz), (proj2 (Z.leb_le _ _) Hx), (proj2 (Z.leb_le _ _) Hy).
  simpl negb. cbv iota.
  fold (region_origin p1).
  change (point.add _ (point.mk 1 1)) with (region_size p1 p2).
  rewrite Ho, Hs, !bool_decide_eq_true_2 by done. done.
Qed.

Lemma window_coords_lookup (o : tripoint.t) (sz : point.t) (dx dy : Z) :
  0 ≤ dx < point.x sz → 0 ≤ dy < point.y sz →
  window_coords o sz !! Z.to_nat (dy * point.x sz + dx) =
  Some (tripoint.add_point o (point.mk dx dy)).
Proof.
  intros Hx Hy. unfold window_coords.
  replace (Z.to_nat (dy * point.x sz + dx))
    with (Z.to_nat dy * Z.to_nat (point.x sz) + Z.to_nat dx)%nat by lia.
  apply (join_lookup_Some_same_length' (Z.to_nat (point.x sz))).
  - apply Forall_fmap, Forall_forall. intros j _. simpl.
    unfold window_row. by rewrite length_fmap, length_seqZ.
  - lia.
  - exists (window_row o (point.x sz) dy). split.
    + rewrite list_lookup_fmap, lookup_seqZ_lt by lia. simpl.
      do 2 f_equal. lia.
    + unfold window_row.
      rewrite list_lookup_fmap, lookup_seqZ_lt by lia. simpl.
      do 3 f_equal. lia.
Qed.

Lemma window_coords_length (o : tripoint.t) (sz : point.t) :
  0 ≤ point.x sz → 0 ≤ point.y sz →
  length (window_coords o sz) = Z.to_nat (point.x sz * point.y sz).
Proof.
  intros Hx Hy. unfold window_coords.
  rewrite length_join, (sum_list_fmap_same (Z.to_nat (point.x sz))).
  - rewrite length_fmap, length_seqZ. lia.
  - apply Forall_fmap, Forall_forall. intros j _. simpl.
    unfold window_row. by rewrite length_fmap, length_seqZ.
Qed.

Lemma fetch_all_length (l : list tripoint.t) (s : state) :
  length (fetch_all l s).1 = length l.
Proof.
  revert s. induction l as [|k l IH]; intros s; [done|].
  rewrite fetch_all_cons. simpl. by rewrite IH.
Qed.

Lemma fetch_all_lookup (l : list tripoint.t) (s : state) (i : nat) (k : tripoint.t) :
  l !! i = Some k →
  ∃ p, (fetch_all l s).1 !! i = Some p ∧ submaps (fetch_all l s).2 !! k = Some p.
Proof.
  revert s i. induction l as [|k' l IH]; intros s i Hk; [done|].
  rewrite fetch_all_cons. destruct i as [|i]; simpl in *.
  - injection Hk as ->. eexists. split; [done|].
    apply fetch_all_keeps, fetch_submap_registers.
  - by apply IH.
Qed.

Lemma region_size_pos (p1 p2 : tripoint.t) :
  tripoint.x p1 ≤ tripoint.x p2 → tripoint.y p1 ≤ tripoint.y p2 →
  2 ≤ point.x (region_size p1 p2) ∧ 2 ≤ point.y (region_size p1 p2).
Proof.
  intros Hx Hy. unfold region_size, region_origin. rewrite !coord_pair_sm. simpl.
  pose proof (Z.div_le_mono _ _ SEEX SEEX_pos Hx).
  pose proof (Z.div_le_mono _ _ SEEX SEEX_pos Hy).
  lia.
Qed.

Lemma fetch_all_store (l : list tripoint.t) (s : state) :
  Some <$> (fetch_all l s).1 = (λ k, submaps (fetch_all l s).2 !! k) <$> l.
Proof.
  apply list_eq. intros i. rewrite !list_lookup_fmap.
  destruct (l !! i) as [k|] eqn:E; simpl.
  - destruct (fetch_all_lookup l s i k E) as (p & -> & ->). done.
  - rewrite (proj2 (lookup_ge_None _ _)); [done|].
    rewrite fetch_all_length. by apply lookup_ge_None.
Qed.

Lemma window_wf_cell (s : state) (dx dy : Z) :
  window_wf s →
  0 ≤ dx < point.x (cache_size s) → 0 ≤ dy < point.y (cache_size s) →
  ∃ p, cached s !! Z.to_nat (dy * point.x (cache_size s) + dx) = Some p ∧
       submaps s !! tripoint.add_point (cache_pos s) (point.mk dx dy) = Some p.
Proof.
  intros Hwf Hx Hy.
  apply (f_equal (λ l, l !! Z.to_nat (dy * point.x (cache_size s) + dx))) in Hwf.
  rewrite !list_lookup_fmap, window_coords_lookup in Hwf by done. simpl in Hwf.
  destruct (cached s !! _) as [p|]; [|done].
  exists p. split; [done|]. by injection Hwf.
Qed.

Lemma window_wf_mono (s s1 : state) :
  cached s1 = cached s → cache_pos s1 = cache_pos s → cache_size s1 = cache_size s →
  (∀ k p, submaps s !! k = Some p → submaps s1 !! k = Some p) →
  window_wf s → window_wf s1.
Proof.
  unfold window_wf. intros -> -> -> Hext Hwf. rewrite Hwf.
  apply list_eq. intros i.
  apply (f_equal (λ l, l !! i)) in Hwf. rewrite !list_lookup_fmap in *.
  destruct (window_coords _ _ !! i) as [k|]; [|done]. simpl in *.
  destruct (cached s !! i) as [p|]; [|done].
  injection Hwf as Hp. f_equal. rewrite <- Hp. symmetry. by apply Hext.
Qed.

Lemma window_wf_fresh (d : filesystem) (base : string) :
  window_wf (fresh_map_memory d base).
Proof. reflexivity. Qed.

Lemma window_wf_fetch (k : tripoint.t) (s : state) :
  window_wf s → window_wf (fetch_submap k s).2.
Proof.
  destruct (fetch_submap_frame k s) as (? & ? & ? & _).
  apply window_wf_mono; try done.
  intros k' p. apply fetch_submap_keeps.
Qed.

(** C5: for a rectangle on one level with [p1] below [p2] on both axes,
    [prepare_region] returns with a window whose origin is the chunk of [p1]
    less (1,1) and whose size is the chunk of [p2] less the origin plus
    (1,1); so from chunks (2,3,0) and (4,3,0) the origin is (1,2,0) and the
    size (4,2).  Unless the window was that one already, the cells are the
    chunks fetched for the coordinates of the window in row-major order,
    y outer and x inner.  In the result the cell at [dy * size.x + dx] is
    the chunk the store holds for the origin plus [(dx, dy)]; when the call
    found the window in place, this is so provided it was so before. *)
Theorem prepare_region_window (p1 p2 : tripoint.t) (s : state) :
  tripoint.z p1 = tripoint.z p2 →
  tripoint.x p1 ≤ tripoint.x p2 → tripoint.y p1 ≤ tripoint.y p2 →
  let origin := tripoint.sub_point (sm (coord_pair_of p1)) (point.mk 1 1) in
  let size :=
    point.add (point.sub (tripoint.xy (sm (coord_pair_of p2))) (tripoint.xy origin))
              (point.mk 1 1) in
  ∃ s', prepare_region p1 p2 s = Some s' ∧
        cache_pos s' = origin ∧ cache_size s' = size ∧
        (sm (coord_pair_of p1) = tripoint.mk 2 3 0 →
         sm (coord_pair_of p2) = tripoint.mk 4 3 0 →
         cache_pos s' = tripoint.mk 1 2 0 ∧ cache_size s' = point.mk 4 2) ∧
        (¬ (cache_pos s = origin ∧ cache_size s = size) →
         let r := fetch_all (window_coords origin size) s in
         s' = with_window origin size r.1 r.2) ∧
        (¬ (cache_pos s = origin ∧ cache_size s = size) ∨ window_wf s →
         window_wf s' ∧
         length (cached s') = Z.to_nat (point.x size * point.y size) ∧
         ∀ dx dy, 0 ≤ dx < point.x size → 0 ≤ dy < point.y size →
           ∃ p, cached s' !! Z.to_nat (dy * point.x size + dx) = Some p ∧
                submaps s' !! tripoint.add_point origin (point.mk dx dy) = Some p).
Proof.
  intros Hz Hx Hy origin size.
  change origin with (region_origin p1). change size with (region_size p1 p2).
  clear origin size.
  pose proof (region_size_pos p1 p2 Hx Hy) as [Hsx Hsy].
  assert (∀ s', cache_pos s' = region_origin p1 → cache_size s' = region_size p1 p2 →
                window_wf s' →
                window_wf s' ∧
                length (cached s') =
                Z.to_nat (point.x (region_size p1 p2) * point.y (region_size p1 p2)) ∧
                ∀ dx dy, 0 ≤ dx < point.x (region_size p1 p2) →
                         0 ≤ dy < point.y (region_size p1 p2) →
                  ∃ p, cached s' !! Z.to_nat (dy * point.x (region_size p1 p2) + dx) = Some p ∧
                       submaps s' !! tripoint.add_point (region_origin p1) (point.mk dx dy)
                       = Some p) as Hcells.
  { intros s' Ho Hs Hwf. split; [done|]. split.
    - apply (f_equal length) in Hwf. rewrite !length_fmap in Hwf.
      rewrite Hwf, Ho, Hs. apply window_coords_length; lia.
    - intros dx dy Hdx Hdy. rewrite <- Ho, <- Hs. apply window_wf_cell; by rewrite ?Hs. }
  destruct (decide (cache_pos s = region_origin p1 ∧ cache_size s = region_size p1 p2))
    as [[Ho Hs]|Hne].
  - exists s. split; [by apply prepare_region_same|].
    split; [done|]. split; [done|]. split; [|split].
    + intros H1 H2. rewrite Ho, Hs. unfold region_size, region_origin.
      by rewrite H1, H2.
    + by intros [].
    + intros [[]|Hwf]; [done|]. by apply Hcells.
  - eexists. split; [by apply prepare_region_rebuilds|].
    split; [done|]. split; [done|]. split; [|split].
    + intros H1 H2. simpl. unfold region_size, region_origin. by rewrite H1, H2.
    + done.
    + intros _. apply Hcells; [done..|]. apply fetch_all_store.
Qed.

(** C6: a second [prepare_region] with the same rectangle is a no-op.  The
    state the first call leaves has the origin and the size the second call
    computes, so the second call returns at the test of the window, before
    any fetch, and leaves the whole state as it is: the window, the cells,
    the chunk store, the heap, the files and the log. *)
Theorem prepare_region_twice (p1 p2 : tripoint.t) (s s1 : state) :
  prepare_region p1 p2 s = Some s1 →
  cache_pos s1 = region_origin p1 ∧ cache_size s1 = region_size p1 p2 ∧
  prepare_region p1 p2 s1 = Some s1.
Proof.
  intros H.
  assert (tripoint.z p1 = tripoint.z p2 ∧ tripoint.x p1 ≤ tripoint.x p2 ∧
          tripoint.y p1 ≤ tripoint.y p2) as (Hz & Hx & Hy).
  { unfold prepare_region in H.
    destruct (tripoint.z p1 =? tripoint.z p2) eqn:Ez; [|done].
    destruct (tripoint.x p1 <=? tripoint.x p2) eqn:Ex; [|done].
    destruct (tripoint.y p1 <=? tripoint.y p2) eqn:Ey; [|done].
    apply Z.eqb_eq in Ez. apply Z.leb_le in Ex, Ey. done. }
  assert (cache_pos s1 = region_origin p1 ∧ cache_size s1 = region_size p1 p2) as [Ho Hs].
  { destruct (decide (cache_pos s = region_origin p1 ∧ cache_size s = region_size p1 p2))
      as [[Ho Hs]|Hne].
    - rewrite prepare_region_same in H by done. by injection H as <-.
    - rewrite prepare_region_rebuilds in H by done. by injection H as <-. }
  split; [done|]. split; [done|]. by apply prepare_region_same.
Qed.

(** ** Loading a save *)

Lemma fetch_all_heap (l : list tripoint.t) (s : state) (q : ptr) (m : memorized_submap) :
  heap s !! q = Some m → heap (fetch_all l s).2 !! q = Some m.
Proof.
  revert s. induction l as [|k l IH]; intros s Hq; [done|].
  rewrite fetch_all_cons. simpl. by apply IH, fetch_submap_heap.
Qed.

Lemma load_legacy_cons (e : tripoint.t * memorized_submap)
    (l : list (tripoint.t * memorized_submap)) (s : state) :
  load_legacy (e :: l) s = load_legacy l (register_legacy e s).
Proof. reflexivity. Qed.

Lemma load_legacy_frame (l : list (tripoint.t * memorized_submap)) (s : state) :
  cached (load_legacy l s) = cached s ∧ cache_pos (load_legacy l s) = cache_pos s ∧
  cache_size (load_legacy l s) = cache_size s ∧
  null_mz_submap (load_legacy l s) = null_mz_submap s ∧
  disk (load_legacy l s) = disk s ∧ debug_log (load_legacy l s) = debug_log s.
Proof.
  revert s. induction l as [|e l IH]; intros s; [done|].
  rewrite load_legacy_cons.
  destruct (IH (register_legacy e s)) as (-> & -> & -> & -> & -> & ->). done.
Qed.

Lemma load_legacy_keeps (l : list (tripoint.t * memorized_submap)) (s : state)
    (k : tripoint.t) (p : ptr) (m : memorized_submap) :
  submaps s !! k = Some p → heap s !! p = Some m →
  submaps (load_legacy l s) !! k = Some p ∧ heap (load_legacy l s) !! p = Some m.
Proof.
  revert s. induction l as [|[k' m'] l IH]; intros s Hk Hp; [done|].
  rewrite load_legacy_cons. apply IH; simpl.
  - unfold map_insert_new. destruct (submaps s !! k') eqn:E; [done|].
    rewrite lookup_insert_ne by congruence. done.
  - pose proof (fresh_not_in_heap s). rewrite lookup_insert_ne by congruence. done.
Qed.

Lemma load_legacy_populates (l : list (tripoint.t * memorized_submap)) (s : state)
    (k : tripoint.t) (m : memorized_submap) :
  submaps s !! k = None →
  (list_to_map l : gmap tripoint.t memorized_submap) !! k = Some m →
  ∃ p, submaps (load_legacy l s) !! k = Some p ∧ heap (load_legacy l s) !! p = Some m.
Proof.
  revert s. induction l as [|[k' m'] l IH]; intros s Hk Hm; [done|].
  rewrite load_legacy_cons.
  simpl in Hm. destruct (decide (k' = k)) as [->|Hne].
  - rewrite lookup_insert_eq in Hm. injection Hm as ->.
    exists (fresh (dom (heap s))).
    apply load_legacy_keeps; simpl.
    + rewrite map_insert_new_lookup by done. apply lookup_insert_eq.
    + apply lookup_insert_eq.
  - rewrite lookup_insert_ne in Hm by done.
    apply IH; [|done]. simpl.
    unfold map_insert_new. destruct (submaps s !! k'); [done|].
    by rewrite lookup_insert_ne.
Qed.

Lemma tripoint_add_level (a : tripoint.t) (dx dy : Z) :
  tripoint.add a (tripoint.mk dx dy 0) = tripoint.add_point a (point.mk dx dy).
Proof. unfold tripoint.add, tripoint.add_point. simpl. f_equal. lia. Qed.

Lemma for_loop_fetch_row (start : tripoint.t) (dy : Z) (k : nat) :
  ∀ (i : Z) (s : state),
  for_loop_from k i
    (λ dx st, (fetch_submap (tripoint.add start (tripoint.mk dx dy 0)) st).2) s =
  (fetch_all ((λ dx, tripoint.add_point start (point.mk dx dy)) <$> seqZ i (Z.of_nat k)) s).2.
Proof.
  induction k as [|k IH]; intros i s; [done|].
  rewrite seqZ_cons by lia.
  replace (Z.pred (Z.of_nat (S k))) with (Z.of_nat k) by lia.
  rewrite fmap_cons, fetch_all_cons. simpl.
  rewrite IH, tripoint_add_level. replace (Z.succ i) with (i + 1) by lia. done.
Qed.

Lemma for_loop_fetch_rows (start : tripoint.t) (nx : Z) (k : nat) :
  ∀ (j : Z) (s : state),
  for_loop_from k j
    (λ dy, for_loop nx
       (λ dx st, (fetch_submap (tripoint.add start (tripoint.mk dx dy 0)) st).2)) s =
  (fetch_all (mjoin (window_row start nx <$> seqZ j (Z.of_nat k))) s).2.
Proof.
  induction k as [|k IH]; intros j s; [done|].
  rewrite seqZ_cons by lia.
  replace (Z.pred (Z.of_nat (S k))) with (Z.of_nat k) by lia.
  rewrite fmap_cons. simpl for_loop_from. unfold for_loop at 2.
  rewrite for_loop_fetch_row, seqZ_to_nat. fold (window_row start nx j).
  rewrite IH. change (mjoin (?l :: ?ls)) with (l ++ mjoin ls).
  rewrite fetch_all_app. simpl. replace (Z.succ j) with (j + 1) by lia. done.
Qed.

Lemma load_fetches (pos : tripoint.t) (s : state) :
  dir_exist (find_mm_dir s) s = true →
  load pos s =
  (fetch_all (window_coords
                (tripoint.sub_point (sm (coord_pair_of pos)) (point.mk MAPSIZE MAPSIZE))
                (point.mk MM_SIZE MM_SIZE)) s).2.
Proof.
  intros Hd. unfold load. rewrite Hd. simpl negb. cbv iota.
  unfold for_loop at 1. rewrite for_loop_fetch_rows, seqZ_to_nat.
  unfold window_coords. simpl point.x. simpl point.y.
  replace (MM_SIZE `quot` 2) with MAPSIZE by (unfold MM_SIZE; by rewrite Z.quot_mul).
  replace (tripoint.sub (sm (coord_pair_of pos)) (tripoint.mk MAPSIZE MAPSIZE 0))
    with (tripoint.sub_point (sm (coord_pair_of pos)) (point.mk MAPSIZE MAPSIZE)); [done|].
  unfold tripoint.sub, tripoint.sub_point. simpl. f_equal. lia.
Qed.

Lemma prepare_region_asserts (p1 p2 : tripoint.t) (s s1 : state) :
  prepare_region p1 p2 s = Some s1 →
  tripoint.z p1 = tripoint.z p2 ∧ tripoint.x p1 ≤ tripoint.x p2 ∧
  tripoint.y p1 ≤ tripoint.y p2.
Proof.
  unfold prepare_region. intros H.
  destruct (tripoint.z p1 =? tripoint.z p2) eqn:Ez; [|done].
  destruct (tripoint.x p1 <=? tripoint.x p2) eqn:Ex; [|done].
  destruct (tripoint.y p1 <=? tripoint.y p2) eqn:Ey; [|done].
  apply Z.eqb_eq in Ez. apply Z.leb_le in Ex, Ey. done.
Qed.

Lemma get_tile_in_cell (q : tripoint.t) (s : state) (p : ptr) (m : memorized_submap) :
  get_submap (sm (coord_pair_of q)) s = Some (ref_cached p) →
  heap s !! p = Some m →
  get_tile q s =
  Some (tiles m (point.x (loc (coord_pair_of q))) (point.y (loc (coord_pair_of q)))).
Proof.
  intros Hg Hp. unfold get_tile. rewrite Hg. simpl. rewrite Hp. simpl.
  pose proof (coord_pair_loc_in_bounds q) as [Hx Hy]. simpl in Hx, Hy.
  unfold grid_get. by rewrite Hx, Hy.
Qed.

Lemma rebuilt_window_cell (o : tripoint.t) (sz : point.t) (s : state)
    (k : tripoint.t) (p : ptr) :
  let r := fetch_all (window_coords o sz) s in
  let s2 := with_window o sz r.1 r.2 in
  submaps s !! k = Some p →
  tripoint.z k = tripoint.z o →
  0 < point.x (window_index k s2) < point.x sz →
  0 < point.y (window_index k s2) < point.y sz →
  get_submap k s2 = Some (ref_cached p).
Proof.
  intros r s2 Hk Hz Hx Hy.
  rewrite get_submap_cached by done.
  change (cache_size s2) with sz. change (cached s2) with r.1.
  destruct (fetch_all_lookup (window_coords o sz) s
              (Z.to_nat (point.y (window_index k s2) * point.x sz
                         + point.x (window_index k s2)))
              (tripoint.add_point o (point.mk (point.x (window_index k s2))
                                              (point.y (window_index k s2)))))
    as (p' & Hc & Hs).
  { apply window_coords_lookup; lia. }
  fold r in Hc, Hs. rewrite Hc. simpl. do 2 f_equal.
  replace (tripoint.add_point o _) with k in Hs.
  - pose proof (fetch_all_keeps (window_coords o sz) k p s Hk) as Hk'.
    fold r in Hk'. congruence.
  - unfold window_index, tripoint.add_point. change (cache_pos s2) with o.
    destruct k as [kx ky kz]. simpl in *. f_equal; lia.
Qed.

(** C9, as amended: when the chunk directory does not exist and the legacy
    file is there and parses, [load] hands its chunks to [load_legacy] and
    returns: the window is as it was, and each chunk of the file whose
    coordinate was not tracked is in the chunk store; [get_tile] gives the
    entries of such a chunk once [prepare_region] has rebuilt the window, for
    a position on the level of the window whose chunk has an index of 1 or
    more on both axes.  When the directory exists, [load] fetches the chunks
    of the square of width [MAPSIZE * 2] that starts [MAPSIZE] chunks
    before the chunk of the position on both axes, in row-major order,
    after which all of them are tracked. *)
Theorem load_legacy_or_square (pos : tripoint.t) (s : state) :
  (∀ text l,
     dir_exist (find_mm_dir s) s = false →
     files (disk s) !! find_legacy_mm_file s = Some text →
     deserialize_legacy text = inr l →
     load pos s = load_legacy l s ∧
     cached (load pos s) = cached s ∧
     cache_pos (load pos s) = cache_pos s ∧
     cache_size (load pos s) = cache_size s ∧
     ∀ k m,
       submaps s !! k = None →
       (list_to_map l : gmap tripoint.t memorized_submap) !! k = Some m →
       (∃ p, submaps (load pos s) !! k = Some p ∧ heap (load pos s) !! p = Some m) ∧
       ∀ p1 p2 s2 q,
         prepare_region p1 p2 (load pos s) = Some s2 →
         ¬ (cache_pos s = region_origin p1 ∧ cache_size s = region_size p1 p2) →
         sm (coord_pair_of q) = k →
         tripoint.z q = tripoint.z p1 →
         0 < point.x (window_index k s2) < point.x (cache_size s2) →
         0 < point.y (window_index k s2) < point.y (cache_size s2) →
         get_tile q s2 =
         Some (tiles m (point.x (loc (coord_pair_of q))) (point.y (loc (coord_pair_of q))))) ∧
  (dir_exist (find_mm_dir s) s = true →
   let start := tripoint.sub_point (sm (coord_pair_of pos)) (point.mk MAPSIZE MAPSIZE) in
   let size := point.mk (MAPSIZE * 2) (MAPSIZE * 2) in
   load pos s = (fetch_all (window_coords start size) s).2 ∧
   ∀ dx dy, 0 ≤ dx < MAPSIZE * 2 → 0 ≤ dy < MAPSIZE * 2 →
     is_Some (submaps (load pos s) !! tripoint.add_point start (point.mk dx dy))).
Proof.
  split.
  - intros text l Hd Hf Hl.
    assert (load pos s = load_legacy l s) as Hload.
    { unfold load, file_exist, read_from_file_optional_json. rewrite Hd, Hf. simpl negb. cbv iota.
      rewrite bool_decide_eq_true_2 by eauto. by rewrite Hl. }
    rewrite Hload.
    destruct (load_legacy_frame l s) as (Hc & Ho & Hs & _).
    do 4 (split; [done|]).
    intros k m Hk Hm.
    destruct (load_legacy_populates l s k m Hk Hm) as (p & Hp & Hh).
    split; [eauto|].
    intros p1 p2 s2 q Hprep Hne Hq Hz Hx Hy.
    destruct (prepare_region_asserts _ _ _ _ Hprep) as (Hz' & Hx' & Hy').
    rewrite prepare_region_rebuilds in Hprep by (rewrite ?Ho, ?Hs; done).
    injection Hprep as <-.
    apply get_tile_in_cell with (p := p).
    + rewrite Hq. apply rebuilt_window_cell; try done.
      rewrite <- Hq. unfold region_origin. by rewrite !coord_pair_sm.
    + simpl. by apply fetch_all_heap.
  - intros Hd start size. subst start size.
    change (MAPSIZE * 2) with MM_SIZE.
    rewrite load_fetches by done.
    split; [done|].
    intros dx dy Hdx Hdy.
    destruct (fetch_all_lookup
                (window_coords
                   (tripoint.sub_point (sm (coord_pair_of pos)) (point.mk MAPSIZE MAPSIZE))
                   (point.mk MM_SIZE MM_SIZE))
                s (Z.to_nat (dy * MM_SIZE + dx))
                (tripoint.add_point
                   (tripoint.sub_point (sm (coord_pair_of pos)) (point.mk MAPSIZE MAPSIZE))
                   (point.mk dx dy)))
      as (p & _ & Hp).
    { apply (window_coords_lookup _ (point.mk MM_SIZE MM_SIZE)); done. }
    rewrite Hp. eauto.
Qed.

(** The lookup compares x and y only: the level of the chunk asked for
    plays no part, the caller is trusted to ask on the level of the window. *)
Remark get_submap_ignores_level (sm_pos : tripoint.t) (z' : Z) (s : state) :
  get_submap (tripoint.mk (tripoint.x sm_pos) (tripoint.y sm_pos) z') s = get_submap sm_pos s.
Proof. reflexivity. Qed.

(** ** Reading and writing entries *)

Lemma get_submap_with_object (k : tripoint.t) (r : submap_ref) (m : memorized_submap)
    (s : state) :
  get_submap k (with_object r m s) = get_submap k s.
Proof. by destruct r. Qed.

Lemma read_ref_with_object (r : submap_ref) (m : memorized_submap) (s : state) :
  read_ref r (with_object r m s) = Some m.
Proof. destruct r; simpl; [apply lookup_insert_eq|done]. Qed.

Lemma read_ref_with_object_ne (r r' : submap_ref) (m : memorized_submap) (s : state) :
  r ≠ r' → read_ref r' (with_object r m s) = read_ref r' s.
Proof.
  intros Hne. destruct r as [p|], r' as [p'|]; simpl; try done.
  apply lookup_insert_ne. congruence.
Qed.

Lemma write_ref_with_object (r : submap_ref) (m m' : memorized_submap) (s : state) :
  read_ref r s = Some m → write_ref r m' s = Some (with_object r m' s).
Proof.
  intros Hr. destruct r as [p|]; simpl in *; [|done].
  by rewrite bool_decide_eq_true_2 by eauto.
Qed.

Lemma write_ref_inv (r : submap_ref) (m' : memorized_submap) (s s' : state) :
  write_ref r m' s = Some s' → s' = with_object r m' s.
Proof.
  destruct r as [p|]; simpl; [|by intros [= <-]].
  destruct (bool_decide _); [by intros [= <-]|done].
Qed.

Lemma get_tile_reads (pos : tripoint.t) (s : state) (r : submap_ref) (m : memorized_submap) :
  get_submap (sm (coord_pair_of pos)) s = Some r → read_ref r s = Some m →
  get_tile pos s =
  Some (tiles m (point.x (loc (coord_pair_of pos))) (point.y (loc (coord_pair_of pos)))).
Proof.
  intros Hg Hr. unfold get_tile, grid_get.
  destruct (coord_pair_loc_in_bounds pos) as [-> ->].
  rewrite Hg. simpl. rewrite Hr. done.
Qed.

Lemma get_symbol_reads (pos : tripoint.t) (s : state) (r : submap_ref) (m : memorized_submap) :
  get_submap (sm (coord_pair_of pos)) s = Some r → read_ref r s = Some m →
  get_symbol pos s =
  Some (symbols m (point.x (loc (coord_pair_of pos))) (point.y (loc (coord_pair_of pos)))).
Proof.
  intros Hg Hr. unfold get_symbol, grid_get.
  destruct (coord_pair_loc_in_bounds pos) as [-> ->].
  rewrite Hg. simpl. rewrite Hr. done.
Qed.

Lemma memorize_tile_writes (pos : tripoint.t) (ter : string) (subtile rotation : Z)
    (s : state) (r : submap_ref) (m : memorized_submap) :
  get_submap (sm (coord_pair_of pos)) s = Some r → read_ref r s = Some m →
  memorize_tile pos ter subtile rotation s =
  Some (with_object r
          (with_tile (point.x (loc (coord_pair_of pos))) (point.y (loc (coord_pair_of pos)))
                     (mk_tile ter subtile rotation) m) s).
Proof.
  intros Hg Hr. unfold memorize_tile, grid_set.
  destruct (coord_pair_loc_in_bounds pos) as [-> ->].
  rewrite Hg. simpl. rewrite Hr. simpl.
  by apply write_ref_with_object with (m := m).
Qed.

Lemma memorize_symbol_writes (pos : tripoint.t) (symbol : Z)
    (s : state) (r : submap_ref) (m : memorized_submap) :
  get_submap (sm (coord_pair_of pos)) s = Some r → read_ref r s = Some m →
  memorize_symbol pos symbol s =
  Some (with_object r
          (with_symbol (point.x (loc (coord_pair_of pos))) (point.y (loc (coord_pair_of pos)))
                       symbol m) s).
Proof.
  intros Hg Hr. unfold memorize_symbol, grid_set.
  destruct (coord_pair_loc_in_bounds pos) as [-> ->].
  rewrite Hg. simpl. rewrite Hr. simpl.
  by apply write_ref_with_object with (m := m).
Qed.

Lemma clear_memorized_tile_writes (pos : tripoint.t)
    (s : state) (r : submap_ref) (m : memorized_submap) :
  get_submap (sm (coord_pair_of pos)) s = Some r → read_ref r s = Some m →
  clear_memorized_tile pos s =
  Some (with_object r
          (with_tile (point.x (loc (coord_pair_of pos))) (point.y (loc (coord_pair_of pos)))
             default_tile
             (with_symbol (point.x (loc (coord_pair_of pos)))
                (point.y (loc (coord_pair_of pos))) default_symbol m)) s).
Proof.
  intros Hg Hr. unfold clear_memorized_tile, grid_set.
  destruct (coord_pair_loc_in_bounds pos) as [-> ->].
  rewrite Hg. simpl. rewrite Hr. simpl.
  by apply write_ref_with_object with (m := m).
Qed.

Lemma memorize_tile_inv (pos : tripoint.t) (ter : string) (subtile rotation : Z)
    (s s' : state) :
  memorize_tile pos ter subtile rotation s = Some s' →
  ∃ r m, get_submap (sm (coord_pair_of pos)) s = Some r ∧ read_ref r s = Some m ∧
         s' = with_object r
                (with_tile (point.x (loc (coord_pair_of pos)))
                   (point.y (loc (coord_pair_of pos))) (mk_tile ter subtile rotation) m) s.
Proof.
  intros H.
  destruct (get_submap (sm (coord_pair_of pos)) s) as [r|] eqn:Hg;
    [|by unfold memorize_tile in H; rewrite Hg in H].
  destruct (read_ref r s) as [m|] eqn:Hr;
    [|by unfold memorize_tile in H; rewrite Hg in H; simpl in H; rewrite Hr in H].
  exists r, m. rewrite (memorize_tile_writes _ _ _ _ _ _ _ Hg Hr) in H.
  by injection H as <-.
Qed.

Lemma memorize_symbol_inv (pos : tripoint.t) (symbol : Z) (s s' : state) :
  memorize_symbol pos symbol s = Some s' →
  ∃ r m, get_submap (sm (coord_pair_of pos)) s = Some r ∧ read_ref r s = Some m ∧
         s' = with_object r
                (with_symbol (point.x (loc (coord_pair_of pos)))
                   (point.y (loc (coord_pair_of pos))) symbol m) s.
Proof.
  intros H.
  destruct (get_submap (sm (coord_pair_of pos)) s) as [r|] eqn:Hg;
    [|by unfold memorize_symbol in H; rewrite Hg in H].
  destruct (read_ref r s) as [m|] eqn:Hr;
    [|by unfold memorize_symbol in H; rewrite Hg in H; simpl in H; rewrite Hr in H].
  exists r, m. rewrite (memorize_symbol_writes _ _ _ _ _ Hg Hr) in H.
  by injection H as <-.
Qed.

Lemma clear_memorized_tile_inv (pos : tripoint.t) (s s' : state) :
  clear_memorized_tile pos s = Some s' →
  ∃ r m, get_submap (sm (coord_pair_of pos)) s = Some r ∧ read_ref r s = Some m ∧
         s' = with_object r
                (with_tile (point.x (loc (coord_pair_of pos)))
                   (point.y (loc (coord_pair_of pos))) default_tile
                   (with_symbol (point.x (loc (coord_pair_of pos)))
                      (point.y (loc (coord_pair_of pos))) default_symbol m)) s.
Proof.
  intros H.
  destruct (get_submap (sm (coord_pair_of pos)) s) as [r|] eqn:Hg;
    [|by unfold clear_memorized_tile in H; rewrite Hg in H].
  destruct (read_ref r s) as [m|] eqn:Hr;
    [|by unfold clear_memorized_tile in H; rewrite Hg in H; simpl in H; rewrite Hr in H].
  exists r, m. rewrite (clear_memorized_tile_writes _ _ _ _ Hg Hr) in H.
  by injection H as <-.
Qed.

Lemma coord_pair_any_level (pos : tripoint.t) (z' : Z) :
  get_submap (sm (coord_pair_of (tripoint.mk (tripoint.x pos) (tripoint.y pos) z'))) =
  get_submap (sm (coord_pair_of pos)) ∧
  loc (coord_pair_of (tripoint.mk (tripoint.x pos) (tripoint.y pos) z')) =
  loc (coord_pair_of pos).
Proof. split; reflexivity. Qed.

Lemma get_tile_with_object (q : tripoint.t) (r : submap_ref) (m m' : memorized_submap)
    (s : state) :
  read_ref r s = Some m →
  (get_submap (sm (coord_pair_of q)) s = Some r →
   tiles m' (point.x (loc (coord_pair_of q))) (point.y (loc (coord_pair_of q))) =
   tiles m (point.x (loc (coord_pair_of q))) (point.y (loc (coord_pair_of q)))) →
  get_tile q (with_object r m' s) = get_tile q s.
Proof.
  intros Hr Hsame.
  destruct (get_submap (sm (coord_pair_of q)) s) as [rq|] eqn:Hg.
  - destruct (decide (r = rq)) as [<-|Hne].
    + rewrite (get_tile_reads q (with_object r m' s) r m'),
        (get_tile_reads q s r m); rewrite ?get_submap_with_object, ?read_ref_with_object;
        try done.
      by rewrite Hsame.
    + unfold get_tile. rewrite get_submap_with_object, Hg. simpl.
      by rewrite read_ref_with_object_ne.
  - unfold get_tile. by rewrite get_submap_with_object, Hg.
Qed.

Lemma get_symbol_with_object (q : tripoint.t) (r : submap_ref) (m m' : memorized_submap)
    (s : state) :
  read_ref r s = Some m →
  (get_submap (sm (coord_pair_of q)) s = Some r →
   symbols m' (point.x (loc (coord_pair_of q))) (point.y (loc (coord_pair_of q))) =
   symbols m (point.x (loc (coord_pair_of q))) (point.y (loc (coord_pair_of q)))) →
  get_symbol q (with_object r m' s) = get_symbol q s.
Proof.
  intros Hr Hsame.
  destruct (get_submap (sm (coord_pair_of q)) s) as [rq|] eqn:Hg.
  - destruct (decide (r = rq)) as [<-|Hne].
    + rewrite (get_symbol_reads q (with_object r m' s) r m'),
        (get_symbol_reads q s r m); rewrite ?get_submap_with_object, ?read_ref_with_object;
        try done.
      by rewrite Hsame.
    + unfold get_symbol. rewrite get_submap_with_object, Hg. simpl.
      by rewrite read_ref_with_object_ne.
  - unfold get_symbol. by rewrite get_submap_with_object, Hg.
Qed.

(** X1: what [memorize_tile] has written, [get_tile] reads back at the
    same x and y, on the level of the write and on every other level: the
    lookup does not look at the level.  Likewise [memorize_symbol] and
    [get_symbol].  This holds inside and outside the window. *)
Theorem memorize_then_get (pos : tripoint.t) (ter : string) (subtile rotation symbol : Z)
    (s : state) :
  (∀ s' z', memorize_tile pos ter subtile rotation s = Some s' →
     get_tile (tripoint.mk (tripoint.x pos) (tripoint.y pos) z') s'
     = Some (mk_tile ter subtile rotation)) ∧
  (∀ s' z', memorize_symbol pos symbol s = Some s' →
     get_symbol (tripoint.mk (tripoint.x pos) (tripoint.y pos) z') s' = Some symbol).
Proof.
  split; intros s' z' H.
  - destruct (memorize_tile_inv _ _ _ _ _ _ H) as (r & m & Hg & Hr & ->).
    destruct (coord_pair_any_level pos z') as [Hsm Hloc].
    erewrite get_tile_reads;
      [|by rewrite Hsm, get_submap_with_object|apply read_ref_with_object].
    rewrite Hloc. simpl. by rewrite !Z.eqb_refl.
  - destruct (memorize_symbol_inv _ _ _ _ H) as (r & m & Hg & Hr & ->).
    destruct (coord_pair_any_level pos z') as [Hsm Hloc].
    erewrite get_symbol_reads;
      [|by rewrite Hsm, get_submap_with_object|apply read_ref_with_object].
    rewrite Hloc. simpl. by rewrite !Z.eqb_refl.
Qed.

(** X2: tiles and symbols are kept apart.  [memorize_tile] changes no
    symbol and [memorize_symbol] changes no tile, at any position. *)
Theorem tiles_and_symbols_independent (pos q : tripoint.t) (ter : string)
    (subtile rotation symbol : Z) (s : state) :
  (∀ s', memorize_tile pos ter subtile rotation s = Some s' →
         get_symbol q s' = get_symbol q s) ∧
  (∀ s', memorize_symbol pos symbol s = Some s' → get_tile q s' = get_tile q s).
Proof.
  split; intros s' H.
  - destruct (memorize_tile_inv _ _ _ _ _ _ H) as (r & m & Hg & Hr & ->).
    by apply get_symbol_with_object with (m := m).
  - destruct (memorize_symbol_inv _ _ _ _ H) as (r & m & Hg & Hr & ->).
    by apply get_tile_with_object with (m := m).
Qed.

(** X3: [clear_memorized_tile] forgets both: afterwards [get_tile] gives the
    default entry and [get_symbol] the default symbol at that x and y. *)
Theorem clear_then_get (pos : tripoint.t) (s s' : state) (z' : Z) :
  clear_memorized_tile pos s = Some s' →
  get_tile (tripoint.mk (tripoint.x pos) (tripoint.y pos) z') s' = Some default_tile ∧
  get_symbol (tripoint.mk (tripoint.x pos) (tripoint.y pos) z') s' = Some default_symbol.
Proof.
  intros H.
  destruct (clear_memorized_tile_inv _ _ _ H) as (r & m & Hg & Hr & ->).
  destruct (coord_pair_any_level pos z') as [Hsm Hloc].
  split.
  - erewrite get_tile_reads;
      [|by rewrite Hsm, get_submap_with_object|apply read_ref_with_object].
    rewrite Hloc. simpl. by rewrite !Z.eqb_refl.
  - erewrite get_symbol_reads;
      [|by rewrite Hsm, get_submap_with_object|apply read_ref_with_object].
    rewrite Hloc. simpl. by rewrite !Z.eqb_refl.
Qed.

(** ** The invariant is kept *)

Lemma fetch_submap_miss_ptr (k : tripoint.t) (s : state) :
  submaps s !! k = None →
  heap s !! (fetch_submap k s).1 = None ∧
  is_Some (heap (fetch_submap k s).2 !! (fetch_submap k s).1) ∧
  submaps (fetch_submap k s).2 = <[k := (fetch_submap k s).1]> (submaps s).
Proof.
  intros Hk. pose proof (fresh_not_in_heap s) as Hf.
  unfold fetch_submap. rewrite Hk.
  unfold load_submap, read_from_file_optional_json, allocate_submap, make_shared.
  destruct (negb _); simpl.
  { rewrite lookup_insert_eq, map_insert_new_lookup by done. eauto. }
  destruct (files _ !! _) as [text|]; simpl.
  2:{ rewrite lookup_insert_eq, map_insert_new_lookup by done. eauto. }
  destruct (deserialize_submap text) as [what|m]; simpl.
  - rewrite delete_insert_eq, delete_id by done.
    rewrite lookup_insert_eq, map_insert_new_lookup by done. eauto.
  - rewrite lookup_insert_eq, map_insert_new_lookup by done. eauto.
Qed.

Lemma fetch_submap_live (k : tripoint.t) (s : state) :
  store_live s → store_live (fetch_submap k s).2.
Proof.
  intros Hl k' p Hp.
  destruct (submaps s !! k) as [q|] eqn:Hk.
  { rewrite (fetch_submap_hit k q s Hk) in *. by apply (Hl k'). }
  destruct (fetch_submap_miss_ptr k s Hk) as (_ & Hlive & Hs).
  rewrite Hs in Hp. destruct (decide (k = k')) as [<-|Hne].
  - rewrite lookup_insert_eq in Hp. by injection Hp as <-.
  - rewrite lookup_insert_ne in Hp by done.
    destruct (Hl k' p Hp) as [m Hm]. exists m. by apply fetch_submap_heap.
Qed.

Lemma fetch_submap_inj (k : tripoint.t) (s : state) :
  store_live s → store_inj s → store_inj (fetch_submap k s).2.
Proof.
  intros Hl Hi. destruct (submaps s !! k) as [q|] eqn:Hk.
  { by rewrite (fetch_submap_hit k q s Hk). }
  destruct (fetch_submap_miss_ptr k s Hk) as (Hnew & _ & Hs).
  intros k1 k2 p. rewrite Hs.
  assert (∀ k', submaps s !! k' = Some (fetch_submap k s).1 → False) as Hfresh.
  { intros k' Hp. destruct (Hl k' _ Hp) as [m Hm]. congruence. }
  destruct (decide (k = k1)) as [<-|Hne1], (decide (k = k2)) as [<-|Hne2];
    rewrite ?lookup_insert_eq, ?lookup_insert_ne by done; try done.
  - intros [= <-] H2. by destruct (Hfresh _ H2).
  - intros H1 [= <-]. by destruct (Hfresh _ H1).
  - apply Hi.
Qed.

Lemma memory_inv_fetch (k : tripoint.t) (s : state) :
  memory_inv s → memory_inv (fetch_submap k s).2.
Proof.
  intros (Hw & Hl & Hi). split; [by apply window_wf_fetch|].
  split; [by apply fetch_submap_live|by apply fetch_submap_inj].
Qed.

Lemma fetch_all_live_inj (l : list tripoint.t) (s : state) :
  store_live s → store_inj s →
  store_live (fetch_all l s).2 ∧ store_inj (fetch_all l s).2.
Proof.
  revert s. induction l as [|k l IH]; intros s Hl Hi; [done|].
  rewrite fetch_all_cons. simpl.
  apply IH; [by apply fetch_submap_live|by apply fetch_submap_inj].
Qed.

Lemma fetch_all_frame (l : list tripoint.t) (s : state) :
  let s1 := (fetch_all l s).2 in
  cached s1 = cached s ∧ cache_pos s1 = cache_pos s ∧
  cache_size s1 = cache_size s ∧ null_mz_submap s1 = null_mz_submap s ∧
  disk s1 = disk s ∧ base_save_path s1 = base_save_path s.
Proof.
  revert s. induction l as [|k l IH]; intros s; [done|].
  rewrite fetch_all_cons. simpl.
  destruct (IH (fetch_submap k s).2) as (-> & -> & -> & -> & -> & ->).
  apply fetch_submap_frame.
Qed.

Lemma memory_inv_fetch_all (l : list tripoint.t) (s : state) :
  memory_inv s → memory_inv (fetch_all l s).2.
Proof.
  intros (Hw & Hl & Hi).
  destruct (fetch_all_live_inj l s Hl Hi) as [Hl' Hi'].
  split; [|done].
  destruct (fetch_all_frame l s) as (? & ? & ? & _).
  apply (window_wf_mono s); try done.
  intros k p. apply fetch_all_keeps.
Qed.

Lemma memory_inv_prepare_region (p1 p2 : tripoint.t) (s s' : state) :
  memory_inv s → prepare_region p1 p2 s = Some s' → memory_inv s'.
Proof.
  intros Hinv H.
  destruct (prepare_region_asserts _ _ _ _ H) as (Hz & Hx & Hy).
  destruct (decide (cache_pos s = region_origin p1 ∧ cache_size s = region_size p1 p2))
    as [[Ho Hs]|Hne].
  - rewrite prepare_region_same in H by done. by injection H as <-.
  - rewrite prepare_region_rebuilds in H by done. injection H as <-.
    destruct Hinv as (_ & Hl & Hi).
    destruct (fetch_all_live_inj (window_coords (region_origin p1) (region_size p1 p2))
                s Hl Hi) as [Hl' Hi'].
    split; [apply fetch_all_store|]. done.
Qed.

Lemma register_legacy_inv (e : tripoint.t * memorized_submap) (s : state) :
  memory_inv s → memory_inv (register_legacy e s).
Proof.
  intros (Hw & Hl & Hi). pose proof (fresh_not_in_heap s) as Hf.
  assert (∀ k, submaps s !! k = Some (fresh (dom (heap s))) → False) as Hfresh.
  { intros k Hp. destruct (Hl k _ Hp) as [m Hm]. congruence. }
  assert (submaps (register_legacy e s) =
          map_insert_new e.1 (fresh (dom (heap s))) (submaps s)) as Hs by done.
  assert (heap (register_legacy e s) = <[fresh (dom (heap s)) := e.2]> (heap s))
    as Hh by done.
  unfold map_insert_new in Hs.
  split; [|split].
  - apply (window_wf_mono s); try done. rewrite Hs. intros k p Hp.
    destruct (submaps s !! e.1) eqn:Hk; [done|].
    rewrite lookup_insert_ne; [done|]. congruence.
  - intros k p. rewrite Hs, Hh.
    assert (submaps s !! k = Some p → is_Some (<[fresh (dom (heap s)) := e.2]> (heap s) !! p))
      as Hold.
    { intros Hp. destruct (Hl k p Hp) as [m Hm]. exists m.
      rewrite lookup_insert_ne; [done|]. congruence. }
    destruct (submaps s !! e.1); [done|].
    destruct (decide (e.1 = k)) as [<-|Hne].
    + rewrite lookup_insert_eq. intros [= <-]. rewrite lookup_insert_eq. eauto.
    + by rewrite lookup_insert_ne.
  - intros k1 k2 p. rewrite Hs.
    destruct (submaps s !! e.1); [apply Hi|].
    destruct (decide (e.1 = k1)) as [<-|Hne1], (decide (e.1 = k2)) as [<-|Hne2];
      rewrite ?lookup_insert_eq, ?lookup_insert_ne by done; try done.
    + intros [= <-] H2. by destruct (Hfresh _ H2).
    + intros H1 [= <-]. by destruct (Hfresh _ H1).
    + apply Hi.
Qed.

Lemma memory_inv_load (pos : tripoint.t) (s : state) :
  memory_inv s → memory_inv (load pos s).
Proof.
  intros Hinv.
  destruct (dir_exist (find_mm_dir s) s) eqn:Hd.
  { rewrite load_fetches by done. by apply memory_inv_fetch_all. }
  unfold load. rewrite Hd. simpl negb. cbv iota.
  destruct (file_exist _ _); [|done].
  destruct (read_from_file_optional_json _ _) as [text|]; [|done].
  destruct (deserialize_legacy text) as [what|l]; [done|].
  clear Hd. revert s Hinv. induction l as [|e l IH]; intros s Hinv; [done|].
  rewrite load_legacy_cons. by apply IH, register_legacy_inv.
Qed.

Lemma memory_inv_with_object (r : submap_ref) (m m' : memorized_submap) (s : state) :
  read_ref r s = Some m → memory_inv s → memory_inv (with_object r m' s).
Proof.
  intros Hr (Hw & Hl & Hi). destruct r as [p|]; [|by split].
  split; [exact Hw|]. split; [|exact Hi].
  intros k q Hq. simpl in *. destruct (decide (p = q)) as [<-|Hne].
  - rewrite lookup_insert_eq. eauto.
  - rewrite lookup_insert_ne by done. by apply (Hl k).
Qed.

Lemma save_entries_frame (d : string) (l : list (tripoint.t * ptr)) (s s' : state) :
  save_entries d l s = Some s' →
  submaps s' = submaps s ∧ cached s' = cached s ∧ cache_pos s' = cache_pos s ∧
  cache_size s' = cache_size s ∧ heap s' = heap s ∧
  null_mz_submap s' = null_mz_submap s ∧ debug_log s' = debug_log s ∧
  base_save_path s' = base_save_path s.
Proof.
  revert s. induction l as [|[k p] l IH]; intros s H.
  { by injection H as <-. }
  simpl in H. destruct (heap s !! p) as [m|]; [|done]. simpl in H.
  destruct (IH _ H) as (-> & -> & -> & -> & -> & -> & -> & ->).
  unfold write_to_file. by destruct (write_ok _ _).
Qed.

Lemma save_frame (s : state) (r : bool * state) :
  save s = Some r →
  submaps r.2 = submaps s ∧ cached r.2 = cached s ∧ cache_pos r.2 = cache_pos s ∧
  cache_size r.2 = cache_size s ∧ heap r.2 = heap s ∧
  null_mz_submap r.2 = null_mz_submap s ∧ debug_log r.2 = debug_log s ∧
  base_save_path r.2 = base_save_path s.
Proof.
  unfold save. destruct (save_entries _ _ _) as [s2|] eqn:H; [|done].
  simpl. intros [= <-]. simpl.
  destruct (save_entries_frame _ _ _ _ H) as (-> & -> & -> & -> & -> & -> & -> & ->).
  unfold assure_dir_exist. destruct (dir_exist _ _); [done|].
  by destruct (mkdir_ok _ _).
Qed.

(** X4: the invariant of the memory holds for a new map_memory and the
    operations keep it ([load] is taken with the chunk directory present):
    the cells of the window are the chunks the store tracks for the
    coordinates of the window, every tracked chunk is a live object, and no
    two coordinates share a chunk. *)
Theorem memory_inv_kept (s : state) :
  (∀ d base, memory_inv (fresh_map_memory d base)) ∧
  (memory_inv s →
   (∀ k, memory_inv (fetch_submap k s).2) ∧
   (∀ p1 p2 s', prepare_region p1 p2 s = Some s' → memory_inv s') ∧
   (∀ pos, dir_exist (find_mm_dir s) s = true → memory_inv (load pos s)) ∧
   (∀ pos ter subtile rotation s',
      memorize_tile pos ter subtile rotation s = Some s' → memory_inv s') ∧
   (∀ pos symbol s', memorize_symbol pos symbol s = Some s' → memory_inv s') ∧
   (∀ pos s', clear_memorized_tile pos s = Some s' → memory_inv s') ∧
   (∀ r, save s = Some r → memory_inv r.2)).
Proof.
  split.
  { intros d base. split; [reflexivity|]. split; [by intros k p|by intros k k' p]. }
  intros Hinv.
  split; [intros k; by apply memory_inv_fetch|].
  split; [intros p1 p2 s'; by apply memory_inv_prepare_region|].
  split; [intros pos _; by apply memory_inv_load|].
  split.
  { intros pos ter subtile rotation s' H.
    destruct (memorize_tile_inv _ _ _ _ _ _ H) as (r & m & _ & Hr & ->).
    by apply memory_inv_with_object with (m := m). }
  split.
  { intros pos symbol s' H.
    destruct (memorize_symbol_inv _ _ _ _ H) as (r & m & _ & Hr & ->).
    by apply memory_inv_with_object with (m := m). }
  split.
  { intros pos s' H.
    destruct (clear_memorized_tile_inv _ _ _ H) as (r & m & _ & Hr & ->).
    by apply memory_inv_with_object with (m := m). }
  intros r H. destruct (save_frame s r H) as (Hs & Hc & Ho & Hz & Hh & _).
  destruct Hinv as (Hw & Hl & Hi).
  split; [|split].
  - unfold window_wf. by rewrite Hs, Hc, Ho, Hz.
  - intros k p. rewrite Hs, Hh. apply Hl.
  - intros k k' p. rewrite Hs. apply Hi.
Qed.

(** ** No undefined behaviour *)

Lemma get_submap_live (k : tripoint.t) (s : state) :
  memory_inv s →
  ∃ r m, get_submap k s = Some r ∧ read_ref r s = Some m ∧
         (in_cells k s →
          ∃ p, r = ref_cached p ∧
               submaps s !! tripoint.add_point (cache_pos s) (window_index k s) = Some p).
Proof.
  intros (Hw & Hl & _).
  destruct (decide (in_cells k s)) as [[Hx Hy]|Hout].
  - destruct (window_wf_cell s (point.x (window_index k s)) (point.y (window_index k s)) Hw)
      as (p & Hc & Hp); [lia..|].
    destruct (Hl _ _ Hp) as [m Hm].
    exists (ref_cached p), m. rewrite get_submap_cached, Hc by done.
    split; [done|]. split; [done|]. intros _. exists p. split; [done|].
    by destruct (window_index k s).
  - exists ref_null, (null_mz_submap s). rewrite get_submap_null by done.
    split; [done|]. split; [done|]. intros Hin. by destruct Hout.
Qed.

Lemma save_entries_total (d : string) (l : list (tripoint.t * ptr)) (s : state) :
  (∀ k p, (k, p) ∈ l → is_Some (heap s !! p)) → is_Some (save_entries d l s).
Proof.
  revert s. induction l as [|[k p] l IH]; intros s Hl; [by eexists|].
  simpl. destruct (Hl k p) as [m ->]; [by left|]. simpl.
  apply IH. intros k' p' Hin.
  replace (heap (write_to_file _ _ s).2) with (heap s).
  - apply (Hl k'). by right.
  - unfold write_to_file. by destruct (write_ok _ _).
Qed.

Lemma save_total (s : state) : store_live s → is_Some (save s).
Proof.
  intros Hl. unfold save.
  destruct (save_entries_total (find_mm_dir s)
              (map_to_list (submaps (assure_dir_exist (find_mm_dir s) s).2))
              (assure_dir_exist (find_mm_dir s) s).2) as [s2 ->]; [|by eexists].
  intros k p Hin. apply elem_of_map_to_list in Hin.
  unfold assure_dir_exist in *.
  destruct (dir_exist _ _); [by apply (Hl k)|].
  destruct (mkdir_ok _ _); by apply (Hl k).
Qed.

(** X5: in a memory that satisfies the invariant no access is undefined:
    at every position, inside the window or not, [get_tile] and
    [get_symbol] return an entry, [memorize_tile], [memorize_symbol] and
    [clear_memorized_tile] return a state, and [save] returns. *)
Theorem accesses_are_defined (s : state) (pos : tripoint.t) :
  memory_inv s →
  is_Some (get_tile pos s) ∧ is_Some (get_symbol pos s) ∧
  (∀ ter subtile rotation, is_Some (memorize_tile pos ter subtile rotation s)) ∧
  (∀ symbol, is_Some (memorize_symbol pos symbol s)) ∧
  is_Some (clear_memorized_tile pos s) ∧
  is_Some (save s).
Proof.
  intros Hinv.
  destruct (get_submap_live (sm (coord_pair_of pos)) s Hinv) as (r & m & Hg & Hr & _).
  split; [rewrite (get_tile_reads pos s r m Hg Hr); eauto|].
  split; [rewrite (get_symbol_reads pos s r m Hg Hr); eauto|].
  split; [intros; rewrite (memorize_tile_writes pos _ _ _ s r m Hg Hr); eauto|].
  split; [intros; rewrite (memorize_symbol_writes pos _ s r m Hg Hr); eauto|].
  split; [rewrite (clear_memorized_tile_writes pos s r m Hg Hr); eauto|].
  apply save_total, Hinv.
Qed.

(** ** Writes stay where they are made *)

Lemma coord_pair_split (p : tripoint.t) :
  tripoint.x p = tripoint.x (sm (coord_pair_of p)) * SEEX + point.x (loc (coord_pair_of p)) ∧
  tripoint.y p = tripoint.y (sm (coord_pair_of p)) * SEEX + point.y (loc (coord_pair_of p)).
Proof.
  rewrite coord_pair_sm, coord_pair_loc. simpl.
  pose proof (Z.div_mod (tripoint.x p) SEEX).
  pose proof (Z.div_mod (tripoint.y p) SEEX).
  lia.
Qed.

Lemma same_cell_same_chunk (k k' : tripoint.t) (p : ptr) (s : state) :
  memory_inv s → in_cells k s →
  get_submap k s = Some (ref_cached p) → get_submap k' s = Some (ref_cached p) →
  tripoint.x k' = tripoint.x k ∧ tripoint.y k' = tripoint.y k.
Proof.
  intros Hinv Hin Hg Hg'.
  assert (in_cells k' s) as Hin'.
  { destruct (decide (in_cells k' s)) as [|Hout]; [done|].
    rewrite get_submap_null in Hg' by done. done. }
  destruct (get_submap_live k s Hinv) as (r & m & Hr & _ & Hc).
  destruct (get_submap_live k' s Hinv) as (r' & m' & Hr' & _ & Hc').
  destruct (Hc Hin) as (q & -> & Hq). destruct (Hc' Hin') as (q' & -> & Hq').
  assert (q = p) as -> by congruence. assert (q' = p) as -> by congruence.
  destruct Hinv as (_ & _ & Hi).
  pose proof (Hi _ _ _ Hq Hq') as Heq.
  unfold tripoint.add_point, window_index in Heq. simpl in Heq.
  injection Heq. lia.
Qed.

(** X6: a write into a cell of the window stays in its cell and at its
    offset.  In a memory that satisfies the invariant, after [memorize_tile]
    at a position whose chunk the lookup resolves to a cell, [get_tile] at
    any position with another x or another y gives what it gave before;
    likewise for [memorize_symbol] and [get_symbol]. *)
Theorem memorize_elsewhere_unchanged (pos q : tripoint.t) (ter : string)
    (subtile rotation symbol : Z) (s : state) :
  memory_inv s →
  in_cells (sm (coord_pair_of pos)) s →
  tripoint.x q ≠ tripoint.x pos ∨ tripoint.y q ≠ tripoint.y pos →
  (∀ s', memorize_tile pos ter subtile rotation s = Some s' →
         get_tile q s' = get_tile q s) ∧
  (∀ s', memorize_symbol pos symbol s = Some s' →
         get_symbol q s' = get_symbol q s).
Proof.
  intros Hinv Hin Hne.
  assert (∀ r, get_submap (sm (coord_pair_of pos)) s = Some r →
               get_submap (sm (coord_pair_of q)) s = Some r →
               (point.x (loc (coord_pair_of q)) =? point.x (loc (coord_pair_of pos)))
               && (point.y (loc (coord_pair_of q)) =? point.y (loc (coord_pair_of pos)))
               = false) as Hoff.
  { intros r Hg Hgq.
    destruct (get_submap_live (sm (coord_pair_of pos)) s Hinv) as (r' & _ & Hg' & _ & Hc).
    destruct (Hc Hin) as (p & -> & _). assert (r = ref_cached p) as -> by congruence.
    destruct (same_cell_same_chunk _ _ p s Hinv Hin Hg Hgq) as [Hx Hy].
    destruct (coord_pair_split pos) as [Hpx Hpy].
    destruct (coord_pair_split q) as [Hqx Hqy].
    apply andb_false_iff. rewrite !Z.eqb_neq. lia. }
  split; intros s' H.
  - destruct (memorize_tile_inv _ _ _ _ _ _ H) as (r & m & Hg & Hr & ->).
    apply get_tile_with_object with (m := m); [done|].
    intros Hgq.
    change (tiles (with_tile ?i ?j ?v ?m0) ?a ?b)
      with (if (a =? i) && (b =? j) then v else tiles m0 a b).
    by rewrite (Hoff r Hg Hgq).
  - destruct (memorize_symbol_inv _ _ _ _ H) as (r & m & Hg & Hr & ->).
    apply get_symbol_with_object with (m := m); [done|].
    intros Hgq.
    change (symbols (with_symbol ?i ?j ?v ?m0) ?a ?b)
      with (if (a =? i) && (b =? j) then v else symbols m0 a b).
    by rewrite (Hoff r Hg Hgq).
Qed.

(** ** What is remembered *)

Lemma in_cells_store (k : tripoint.t) (s : state) :
  memory_inv s → in_cells k s → tripoint.z k = tripoint.z (cache_pos s) →
  ∃ p m, get_submap k s = Some (ref_cached p) ∧ submaps s !! k = Some p ∧
         heap s !! p = Some m.
Proof.
  intros Hinv Hin Hz.
  destruct (get_submap_live k s Hinv) as (r & m & Hg & Hr & Hc).
  destruct (Hc Hin) as (p & -> & Hp).
  exists p, m. split; [done|]. split; [|done].
  replace k with (tripoint.add_point (cache_pos s) (window_index k s)); [done|].
  unfold tripoint.add_point, window_index. destruct k as [kx ky kz].
  simpl in *. f_equal; lia.
Qed.

(** X7: moving the window does not forget.  In a memory that satisfies the
    invariant, an entry memorized in a cell of the window, on the level of
    the window, is what [get_tile] returns after a later [prepare_region]
    for a rectangle on that level, when the lookup resolves the chunk of the
    position to a cell of the new window. *)
Theorem remembered_across_regions (pos p1 p2 : tripoint.t) (ter : string)
    (subtile rotation : Z) (s s1 s2 : state) :
  memory_inv s →
  in_cells (sm (coord_pair_of pos)) s →
  tripoint.z pos = tripoint.z (cache_pos s) →
  memorize_tile pos ter subtile rotation s = Some s1 →
  prepare_region p1 p2 s1 = Some s2 →
  tripoint.z pos = tripoint.z p1 →
  in_cells (sm (coord_pair_of pos)) s2 →
  get_tile pos s2 = Some (mk_tile ter subtile rotation).
Proof.
  intros Hinv Hin Hz Hmem Hprep Hz1 Hin2.
  destruct (in_cells_store _ s Hinv Hin) as (p & m & Hg & Hp & Hm);
    [by rewrite coord_pair_sm|].
  rewrite (memorize_tile_writes pos _ _ _ s _ m Hg Hm) in Hmem. injection Hmem as <-.
  set (m' := with_tile _ _ _ m) in *.
  assert (tiles m' (point.x (loc (coord_pair_of pos))) (point.y (loc (coord_pair_of pos)))
          = mk_tile ter subtile rotation) as Hread.
  { subst m'. unfold with_tile. cbn [tiles]. by rewrite !Z.eqb_refl. }
  destruct (prepare_region_asserts _ _ _ _ Hprep) as (Hz' & Hx' & Hy').
  destruct (decide (cache_pos s = region_origin p1 ∧ cache_size s = region_size p1 p2))
    as [[Ho Hs]|Hne].
  - rewrite prepare_region_same in Hprep by done. injection Hprep as <-.
    rewrite (get_tile_reads pos _ (ref_cached p) m'); [by rewrite Hread|done|].
    apply lookup_insert_eq.
  - rewrite prepare_region_rebuilds in Hprep by done. injection Hprep as <-.
    rewrite (get_tile_reads pos _ (ref_cached p) m'); [by rewrite Hread| |].
    + destruct Hin2 as [Hx2 Hy2].
      apply rebuilt_window_cell; try done; unfold region_origin; by rewrite !coord_pair_sm.
    + simpl. apply fetch_all_heap. apply lookup_insert_eq.
Qed.




(** ** One file per chunk *)

Lemma dotless_pretty_N_go (x : N) (s : string) :
  dotless s = true → dotless (pretty_N_go x s) = true.
Proof.
  revert s. induction (N.lt_wf_0 x) as [x _ IH]; intros s Hs.
  assert (x = 0 ∨ 0 < x)%N as [->|Hx] by lia.
  - by rewrite pretty_N_go_0.
  - rewrite pretty_N_go_step by done. apply IH.
    { by apply N.div_lt. }
    simpl. rewrite Hs. unfold pretty_N_char. by repeat case_match.
Qed.

Lemma dotless_pretty_Z (z : Z) : dotless (pretty z) = true.
Proof.
  assert (∀ x : positive, dotless (pretty x) = true) as Hpos.
  { intros x. unfold pretty, pretty_positive, pretty, pretty_N.
    case_decide; [done|]. by apply dotless_pretty_N_go. }
  destruct z as [|x|x]; [done|apply Hpos|].
  change (pretty (Z.neg x)) with ("-" +:+ pretty x). simpl. apply Hpos.
Qed.

Lemma dotless_split (a b r r' : string) :
  dotless a = true → dotless b = true →
  a +:+ "." +:+ r = b +:+ "." +:+ r' → a = b ∧ r = r'.
Proof.
  revert b. induction a as [|c a IH]; intros [|c' b] Ha Hb H; simpl in *.
  - by simplify_eq.
  - by simplify_eq.
  - by simplify_eq.
  - injection H as -> H.
    apply andb_prop in Ha as [_ Ha]. apply andb_prop in Hb as [_ Hb].
    destruct (IH b Ha Hb H) as [-> ->]. done.
Qed.

Lemma find_submap_path_inj_aux (dirname : string) (k k' : tripoint.t) :
  find_submap_path dirname k = find_submap_path dirname k' → k = k'.
Proof.
  unfold find_submap_path. intros H.
  apply String.app_inj in H. apply (String.app_inj "/") in H.
  apply dotless_split in H as [Hx H]; [|apply dotless_pretty_Z..].
  apply dotless_split in H as [Hy H]; [|apply dotless_pretty_Z..].
  change ".mm" with ("." +:+ "mm") in H.
  apply dotless_split in H as [Hz _]; [|apply dotless_pretty_Z..].
  apply (inj pretty) in Hx, Hy, Hz.
  destruct k, k'. simpl in *. by subst.
Qed.

(** X9: distinct chunks have distinct files.  Within a chunk directory,
    the paths ["<dir>/<x>.<y>.<z>.mm"] of two chunks are equal only when
    the chunks have the same coordinate. *)
Theorem find_submap_path_inj (dirname : string) (k k' : tripoint.t) :
  find_submap_path dirname k = find_submap_path dirname k' ↔ k = k'.
Proof.
  split; [apply find_submap_path_inj_aux|by intros ->].
Qed.

(** ** What [save] writes *)

Lemma write_to_file_frame (path text : string) (s : state) :
  let s1 := (write_to_file path text s).2 in
  heap s1 = heap s ∧ write_ok (disk s1) = write_ok (disk s) ∧
  dirs (disk s1) = dirs (disk s) ∧
  (∀ q, q ≠ path → files (disk s1) !! q = files (disk s) !! q) ∧
  files (disk s1) !! path =
  (if write_ok (disk s) path then Some text else files (disk s) !! path).
Proof.
  unfold write_to_file. destruct (write_ok (disk s) path) eqn:E; simpl; [|done].
  do 3 (split; [done|]). split.
  - intros q Hq. by rewrite lookup_insert_ne.
  - apply lookup_insert_eq.
Qed.

Lemma save_entries_files (d : string) (l : list (tripoint.t * ptr)) (s s' : state)
    (path : string) :
  save_entries d l s = Some s' →
  dirs (disk s') = dirs (disk s) ∧
  (files (disk s') !! path = files (disk s) !! path ∨
   ∃ k p m, (k, p) ∈ l ∧ heap s !! p = Some m ∧ path = find_submap_path d k ∧
            write_ok (disk s) path = true ∧
            files (disk s') !! path = Some (serialize_submap m)).
Proof.
  revert s. induction l as [|[k p] l IH]; intros s H.
  { injection H as <-. auto. }
  simpl in H. destruct (heap s !! p) as [m|] eqn:Hm; [|done]. simpl in H.
  destruct (write_to_file_frame (find_submap_path d k) (serialize_submap m) s)
    as (Hh & Hw & Hd & Hother & Hthis).
  destruct (IH _ H) as [Hdirs [Hsame|(k' & p' & m' & Hin & Hm' & Hp & Hok & Hf)]].
  - split; [congruence|].
    destruct (decide (path = find_submap_path d k)) as [->|Hne].
    + destruct (write_ok (disk s) (find_submap_path d k)) eqn:Hok.
      * right. exists k, p, m. split; [by left|]. by rewrite Hsame, Hthis.
      * left. by rewrite Hsame, Hthis.
    + left. rewrite Hsame. by apply Hother.
  - split; [congruence|]. right. exists k', p', m'.
    split; [by right|]. by rewrite <- Hh, <- Hw.
Qed.

Lemma save_entries_written (d : string) (l : list (tripoint.t * ptr)) (s s' : state)
    (k : tripoint.t) (p : ptr) (m : memorized_submap) :
  NoDup l.*1 → save_entries d l s = Some s' →
  (k, p) ∈ l → heap s !! p = Some m →
  write_ok (disk s) (find_submap_path d k) = true →
  files (disk s') !! find_submap_path d k = Some (serialize_submap m).
Proof.
  revert s. induction l as [|[k0 p0] l IH]; intros s Hnd H Hin Hm Hok.
  { by apply elem_of_nil in Hin. }
  simpl in H. destruct (heap s !! p0) as [m0|] eqn:Hm0; [|done]. simpl in H.
  destruct (write_to_file_frame (find_submap_path d k0) (serialize_submap m0) s)
    as (Hh & Hw & _ & _ & Hthis).
  apply NoDup_cons in Hnd as [Hk0 Hnd].
  apply elem_of_cons in Hin as [[= -> ->]|Hin].
  - destruct (save_entries_files d l _ s' (find_submap_path d k0) H)
      as [_ [Hsame|(k' & p' & _ & Hin' & _ & Hp & _)]].
    + rewrite Hsame, Hthis, Hok. congruence.
    + apply find_submap_path_inj_aux in Hp as ->.
      destruct Hk0. apply list_elem_of_fmap. by exists (k', p').
  - apply (IH _ Hnd H Hin); by rewrite ?Hh, ?Hw.
Qed.

Lemma assure_dir_exist_frame (d : string) (s : state) :
  let s1 := (assure_dir_exist d s).2 in
  submaps s1 = submaps s ∧ heap s1 = heap s ∧ files (disk s1) = files (disk s) ∧
  write_ok (disk s1) = write_ok (disk s) ∧
  dirs (disk s1) ⊆ {[d]} ∪ dirs (disk s) ∧
  (dir_exist d s = true ∨ mkdir_ok (disk s) d = true → dir_exist d s1 = true).
Proof.
  unfold assure_dir_exist. destruct (dir_exist d s) eqn:Hd.
  { simpl. do 4 (split; [done|]). split; [apply union_subseteq_r|done]. }
  destruct (mkdir_ok (disk s) d) eqn:Hm; simpl.
  - do 4 (split; [done|]). split; [reflexivity|]. intros _.
    unfold dir_exist. simpl. apply bool_decide_eq_true_2.
    apply elem_of_union_l, elem_of_singleton. reflexivity.
  - do 4 (split; [done|]). split; [apply union_subseteq_r|]. by intros [|].
Qed.

(** X10: [save] touches nothing but the files of the tracked chunks.  It
    leaves the chunk store, the window, the chunks and the sentinel as they
    are, makes no directory other than the chunk directory, and a file that
    differs after [save] is the file of a tracked chunk that could be
    written and holds the serialization of that chunk. *)
Theorem save_changes_only_chunk_files (s : state) (r : bool * state) (path : string) :
  save s = Some r →
  submaps r.2 = submaps s ∧ cached r.2 = cached s ∧ cache_pos r.2 = cache_pos s ∧
  cache_size r.2 = cache_size s ∧ heap r.2 = heap s ∧
  null_mz_submap r.2 = null_mz_submap s ∧
  dirs (disk r.2) ⊆ {[find_mm_dir s]} ∪ dirs (disk s) ∧
  (files (disk r.2) !! path ≠ files (disk s) !! path →
   ∃ k p m, submaps s !! k = Some p ∧ heap s !! p = Some m ∧
            path = find_submap_path (find_mm_dir s) k ∧
            write_ok (disk s) path = true ∧
            files (disk r.2) !! path = Some (serialize_submap m)).
Proof.
  intros H.
  destruct (save_frame s r H) as (Hs & Hc & Ho & Hz & Hh & Hn & _).
  do 6 (split; [done|]).
  unfold save in H. destruct (save_entries _ _ _) as [s2|] eqn:He; [|done].
  injection H as <-. simpl.
  destruct (assure_dir_exist_frame (find_mm_dir s) s) as (Hs1 & Hh1 & Hf1 & Hw1 & Hd1 & _).
  destruct (save_entries_files _ _ _ _ path He)
    as [Hdirs [Hsame|(k & p & m & Hin & Hm & Hp & Hok & Hf)]].
  - split; [by rewrite Hdirs|]. intros Hne. destruct Hne. by rewrite Hsame, Hf1.
  - split; [by rewrite Hdirs|]. intros _. exists k, p, m.
    apply elem_of_map_to_list in Hin. by rewrite <- Hs1, <- Hh1, <- Hw1.
Qed.

(** X11: each tracked chunk is written on its own.  After [save], the file
    of a tracked chunk holds the serialization of the chunk when its write
    succeeded, and is as it was when its write failed, whatever happened to
    the writes of the other chunks. *)
Theorem save_writes_each_chunk (s : state) (r : bool * state) (k : tripoint.t)
    (p : ptr) (m : memorized_submap) :
  save s = Some r →
  submaps s !! k = Some p → heap s !! p = Some m →
  files (disk r.2) !! find_submap_path (find_mm_dir s) k =
  (if write_ok (disk s) (find_submap_path (find_mm_dir s) k)
   then Some (serialize_submap m)
   else files (disk s) !! find_submap_path (find_mm_dir s) k).
Proof.
  intros H Hk Hm.
  unfold save in H. destruct (save_entries _ _ _) as [s2|] eqn:He; [|done].
  injection H as <-. simpl.
  destruct (assure_dir_exist_frame (find_mm_dir s) s) as (Hs1 & Hh1 & Hf1 & Hw1 & _).
  destruct (write_ok (disk s) _) eqn:Hok.
  - apply (save_entries_written _ _ _ _ k p m (NoDup_fst_map_to_list _) He).
    + apply elem_of_map_to_list. by rewrite Hs1.
    + by rewrite Hh1.
    + by rewrite Hw1.
  - destruct (save_entries_files _ _ _ _ (find_submap_path (find_mm_dir s) k) He)
      as [_ [Hsame|(k' & p' & m' & _ & _ & _ & Hok' & _)]].
    + by rewrite Hsame, Hf1.
    + rewrite Hw1 in Hok'. congruence.
Qed.

(** ** From the files back to the memory *)

Lemma fetch_submap_loads (k : tripoint.t) (s : state) (text : string)
    (m : memorized_submap) :
  dir_exist (find_mm_dir s) s = true →
  files (disk s) !! find_submap_path (find_mm_dir s) k = Some text →
  deserialize_submap text = inr m →
  submaps s !! k = None →
  heap (fetch_submap k s).2 !! (fetch_submap k s).1 = Some m.
Proof.
  intros Hd Hf Hp Hk. unfold fetch_submap. rewrite Hk.
  unfold load_submap, read_from_file_optional_json. rewrite Hd, Hf. simpl.
  rewrite Hp. simpl. apply lookup_insert_eq.
Qed.

Lemma fetch_submap_other (k k' : tripoint.t) (s : state) :
  k ≠ k' → submaps s !! k = None → submaps (fetch_submap k' s).2 !! k = None.
Proof.
  intros Hne Hk. destruct (submaps s !! k') as [q|] eqn:Hk'.
  - by rewrite (fetch_submap_hit k' q s Hk').
  - destruct (fetch_submap_miss_ptr k' s Hk') as (_ & _ & ->).
    by rewrite lookup_insert_ne.
Qed.

Lemma fetch_all_loads (l : list tripoint.t) (k : tripoint.t) (s : state) (text : string)
    (m : memorized_submap) :
  k ∈ l →
  dir_exist (find_mm_dir s) s = true →
  files (disk s) !! find_submap_path (find_mm_dir s) k = Some text →
  deserialize_submap text = inr m →
  submaps s !! k = None →
  ∃ p, submaps (fetch_all l s).2 !! k = Some p ∧ heap (fetch_all l s).2 !! p = Some m.
Proof.
  revert s. induction l as [|k' l IH]; intros s Hin Hd Hf Hp Hk.
  { by apply elem_of_nil in Hin. }
  rewrite fetch_all_cons. simpl.
  destruct (decide (k' = k)) as [->|Hne].
  - exists (fetch_submap k s).1. split.
    + apply fetch_all_keeps, fetch_submap_registers.
    + by apply fetch_all_heap, (fetch_submap_loads k s text m).
  - apply elem_of_cons in Hin as [->|Hin]; [done|].
    destruct (fetch_submap_frame k' s) as (_ & _ & _ & _ & Hdisk & Hbase).
    apply IH; try done.
    + unfold dir_exist, find_mm_dir in *. by rewrite Hdisk, Hbase.
    + unfold find_mm_dir in *. by rewrite Hdisk, Hbase.
    + by apply fetch_submap_other.
Qed.

(** X12: what was memorized and saved is read back.  Take a memory with a
    tracked chunk at the coordinate of [pos], let [save] make or find the
    chunk directory and write the file of the chunk, with a reader that
    parses what the writer wrote for this chunk.  A new map_memory on the
    resulting disk, after [prepare_region] for a rectangle on the level of
    [pos] whose window holds the chunk of [pos] in a cell, returns from
    [get_tile] at [pos] the entry the saved chunk held there. *)
Theorem saved_then_read_back (s : state) (r : bool * state) (pos p1 p2 : tripoint.t)
    (p : ptr) (m : memorized_submap) (s2 : state) :
  save s = Some r →
  submaps s !! sm (coord_pair_of pos) = Some p → heap s !! p = Some m →
  dir_exist (find_mm_dir s) s = true ∨ mkdir_ok (disk s) (find_mm_dir s) = true →
  write_ok (disk s) (find_submap_path (find_mm_dir s) (sm (coord_pair_of pos))) = true →
  deserialize_submap (serialize_submap m) = inr m →
  prepare_region p1 p2 (fresh_map_memory (disk r.2) (base_save_path s)) = Some s2 →
  tripoint.z pos = tripoint.z p1 →
  in_cells (sm (coord_pair_of pos)) s2 →
  get_tile pos s2 =
  Some (tiles m (point.x (loc (coord_pair_of pos))) (point.y (loc (coord_pair_of pos)))).
Proof.
  intros Hsave Hk Hm Hdir Hok Hround Hprep Hz [Hx Hy].
  set (k := sm (coord_pair_of pos)) in *.
  assert (files (disk r.2) !! find_submap_path (find_mm_dir s) k
          = Some (serialize_submap m)) as Hfile.
  { unfold save in Hsave. destruct (save_entries _ _ _) as [s3|] eqn:He; [|done].
    injection Hsave as <-. simpl.
    destruct (assure_dir_exist_frame (find_mm_dir s) s) as (Hs1 & Hh1 & _ & Hw1 & _).
    apply (save_entries_written _ _ _ _ k p m (NoDup_fst_map_to_list _) He).
    - apply elem_of_map_to_list. by rewrite Hs1.
    - by rewrite Hh1.
    - by rewrite Hw1. }
  assert (find_mm_dir s ∈ dirs (disk r.2)) as Hdirs.
  { unfold save in Hsave. destruct (save_entries _ _ _) as [s3|] eqn:He; [|done].
    injection Hsave as <-. simpl.
    destruct (save_entries_files _ _ _ _ EmptyString He) as [-> _].
    destruct (assure_dir_exist_frame (find_mm_dir s) s) as (_ & _ & _ & _ & _ & Hd).
    specialize (Hd Hdir). by apply bool_decide_eq_true in Hd. }
  set (s0 := fresh_map_memory (disk r.2) (base_save_path s)) in *.
  destruct (prepare_region_asserts _ _ _ _ Hprep) as (Hz' & Hx' & Hy').
  rewrite prepare_region_rebuilds in Hprep; [|done..|].
  2:{ intros [_ Hs]. destruct (region_size_pos p1 p2 Hx' Hy') as [Hsx _].
      rewrite <- Hs in Hsx. simpl in Hsx. lia. }
  injection Hprep as <-.
  set (o := region_origin p1) in *. set (sz := region_size p1 p2) in *.
  set (s2 := with_window o sz _ _) in *.
  assert (tripoint.add_point o (window_index k s2) = k) as Hcoord.
  { unfold window_index, tripoint.add_point. change (cache_pos s2) with o.
    assert (tripoint.z k = tripoint.z o) as Hzk.
    { subst k o. unfold region_origin. by rewrite !coord_pair_sm. }
    destruct k as [kx ky kz]. simpl in *. f_equal; lia. }
  change (cache_size s2) with sz in Hx, Hy.
  pose proof (window_coords_lookup o sz (point.x (window_index k s2))
                (point.y (window_index k s2)) ltac:(lia) ltac:(lia)) as Hl.
  replace (point.mk _ _) with (window_index k s2) in Hl by (by destruct (window_index k s2)).
  rewrite Hcoord in Hl.
  destruct (fetch_all_lookup _ s0 _ _ Hl) as (p' & Hc & Hp').
  destruct (fetch_all_loads (window_coords o sz) k s0 (serialize_submap m) m)
    as (q & Hq & Hmq); try done.
  { apply list_elem_of_lookup. eauto. }
  { by apply bool_decide_eq_true_2. }
  assert (q = p') as -> by congruence.
  apply get_tile_reads with (r := ref_cached p').
  - fold k. rewrite get_submap_cached by done.
    change (cache_size s2) with sz. change (cached s2) with (fetch_all (window_coords o sz) s0).1.
    by rewrite Hc.
  - exact Hmq.
Qed.

(** ** Nothing tracked is lost *)

Lemma fetch_all_hits (l : list tripoint.t) (s : state) :
  (∀ k, k ∈ l → is_Some (submaps s !! k)) → (fetch_all l s).2 = s.
Proof.
  revert s. induction l as [|k l IH]; intros s Hl; [done|].
  rewrite fetch_all_cons. simpl.
  destruct (Hl k) as [p Hp]; [by left|].
  rewrite (fetch_submap_hit k p s Hp). simpl.
  apply IH. intros k' Hin. apply Hl. by right.
Qed.

(** X13: nothing tracked is lost.  [prepare_region], and [load] with the
    chunk directory present, keep every tracked chunk under its coordinate
    with the entries it holds, and change neither the sentinel nor the
    disk; [load] leaves the window alone as well. *)
Theorem tracked_chunks_are_kept (s : state) (k : tripoint.t) (p : ptr)
    (m : memorized_submap) :
  submaps s !! k = Some p → heap s !! p = Some m →
  (∀ pos, dir_exist (find_mm_dir s) s = true →
     submaps (load pos s) !! k = Some p ∧ heap (load pos s) !! p = Some m ∧
     null_mz_submap (load pos s) = null_mz_submap s ∧ disk (load pos s) = disk s ∧
     cached (load pos s) = cached s ∧ cache_pos (load pos s) = cache_pos s ∧
     cache_size (load pos s) = cache_size s) ∧
  (∀ p1 p2 s', prepare_region p1 p2 s = Some s' →
     submaps s' !! k = Some p ∧ heap s' !! p = Some m ∧
     null_mz_submap s' = null_mz_submap s ∧ disk s' = disk s).
Proof.
  intros Hk Hm. split.
  - intros pos Hd. rewrite load_fetches by done.
    destruct (fetch_all_frame
                (window_coords
                   (tripoint.sub_point (sm (coord_pair_of pos)) (point.mk MAPSIZE MAPSIZE))
                   (point.mk MM_SIZE MM_SIZE)) s) as (Hc & Ho & Hs & Hn & Hdisk & _).
    split; [by apply fetch_all_keeps|]. split; [by apply fetch_all_heap|]. done.
  - intros p1 p2 s' Hprep.
    destruct (prepare_region_asserts _ _ _ _ Hprep) as (Hz & Hx & Hy).
    destruct (decide (cache_pos s = region_origin p1 ∧ cache_size s = region_size p1 p2))
      as [[Ho Hs]|Hne].
    + rewrite prepare_region_same in Hprep by done. by injection Hprep as <-.
    + rewrite prepare_region_rebuilds in Hprep by done. injection Hprep as <-.
      destruct (fetch_all_frame (window_coords (region_origin p1) (region_size p1 p2)) s)
        as (_ & _ & _ & Hn & Hdisk & _).
      split; [by apply fetch_all_keeps|]. split; [by apply fetch_all_heap|]. done.
Qed.

(** X14: over tracked chunks [prepare_region] only moves the window.  When
    every coordinate of the computed window is tracked already, as after a
    [load] around the position, the call leaves the chunk store, the
    chunks, the disk and the log as they are: nothing is loaded and
    nothing allocated. *)
Theorem prepare_region_of_tracked (p1 p2 : tripoint.t) (s s' : state) :
  (∀ k, k ∈ window_coords (region_origin p1) (region_size p1 p2) →
        is_Some (submaps s !! k)) →
  prepare_region p1 p2 s = Some s' →
  submaps s' = submaps s ∧ heap s' = heap s ∧ disk s' = disk s ∧
  debug_log s' = debug_log s ∧ null_mz_submap s' = null_mz_submap s ∧
  cache_pos s' = region_origin p1 ∧ cache_size s' = region_size p1 p2.
Proof.
  intros Htracked Hprep.
  destruct (prepare_region_asserts _ _ _ _ Hprep) as (Hz & Hx & Hy).
  destruct (decide (cache_pos s = region_origin p1 ∧ cache_size s = region_size p1 p2))
    as [[Ho Hs]|Hne].
  - rewrite prepare_region_same in Hprep by done. by injection Hprep as <-.
  - rewrite prepare_region_rebuilds in Hprep by done. injection Hprep as <-.
    simpl. by rewrite fetch_all_hits.
Qed.

End MapMemory.

(** * The examples *)

(** ** At the constants of the game: a submap edge of 12, a reality bubble
    of 11 submaps, the legacy extension ".mm" *)

(** C1: the lookup of the window misses the first row and the first column.
    After [prepare_region] for the one tile (12,12,0), the window starts at
    chunk (0,0,0) and is two by two; the index of chunk (0,0,0) is (0,0),
    within [0, size) on both axes, and the first cell holds the chunk the
    store tracks for it; yet [get_submap] answers with the sentinel
    [null_mz_submap] and not with that cell, and the same happens for
    (1,0,0) and (0,1,0), so that a tile memorized there never reaches the
    chunk. *)
Theorem get_submap_index_zero_is_null :
  prepare_region 12 example_deserialize_submap (tripoint.mk 12 12 0) (tripoint.mk 12 12 0)
    (fresh_map_memory full_disk "save") = Some small_window ∧
  in_window (tripoint.mk 0 0 0) small_window ∧
  cached small_window !! Z.to_nat (0 * 2 + 0) = Some 0%nat ∧
  submaps small_window !! tripoint.mk 0 0 0 = Some 0%nat ∧
  get_submap (tripoint.mk 0 0 0) small_window = Some ref_null ∧
  get_submap (tripoint.mk 1 0 0) small_window = Some ref_null ∧
  get_submap (tripoint.mk 0 1 0) small_window = Some ref_null ∧
  get_submap (tripoint.mk 1 1 0) small_window = Some (ref_cached 3%nat) ∧
  (∃ s', memorize_tile 12 (tripoint.mk 5 5 0) "t_floor" 2 1 small_window = Some s' ∧
         heap s' = heap small_window ∧
         tiles (null_mz_submap s') 5 5 = mk_tile "t_floor" 2 1).
Proof.
  split; [vm_compute; reflexivity|].
  split; [unfold in_window; simpl; lia|].
  do 6 (split; [reflexivity|]).
  eexists. split; [vm_compute; reflexivity|].
  split; reflexivity.
Qed.

(** C3: [save] reports success although nothing could be written.  On a
    full disk the chunk directory cannot be made and the write of a chunk
    file fails; [save] of a store of four chunks still returns true, and
    leaves the disk without the directory and without any file. *)
Theorem save_true_on_failed_writes :
  (assure_dir_exist "save.mm1" small_window).1 = false ∧
  (write_to_file "save.mm1/0.0.0.mm" "chunk" small_window).1 = false ∧
  size (submaps small_window) = 4%nat ∧
  save example_serialize_submap small_window = Some (true, small_window) ∧
  dirs (disk small_window) = ∅ ∧ files (disk small_window) = ∅.
Proof.
  repeat split; vm_compute; reflexivity.
Qed.

(** C9, as stated, fails: from a save with only the legacy file, [load]
    populates the chunk store with the chunk of the file, which remembers
    ("t_floor", 2, 1) at (5,5,0); the window is still empty, so [get_tile]
    at (5,5,0) right after [load] gives the default entry. *)
Lemma load_legacy_then_get_tile_default :
  dir_exist "save.mm1" (fresh_map_memory legacy_disk "save") = false ∧
  file_exist "save.mm" (fresh_map_memory legacy_disk "save") = true ∧
  (∃ p, submaps (load 12 11 ".mm" example_deserialize_submap example_deserialize_legacy
                   (tripoint.mk 5 5 0) (fresh_map_memory legacy_disk "save"))
          !! tripoint.mk 0 0 0 = Some p ∧
        heap (load 12 11 ".mm" example_deserialize_submap example_deserialize_legacy
                (tripoint.mk 5 5 0) (fresh_map_memory legacy_disk "save"))
          !! p = Some floor_chunk) ∧
  sm (coord_pair_of 12 (tripoint.mk 5 5 0)) = tripoint.mk 0 0 0 ∧
  loc (coord_pair_of 12 (tripoint.mk 5 5 0)) = point.mk 5 5 ∧
  tiles floor_chunk 5 5 = mk_tile "t_floor" 2 1 ∧
  get_tile 12 (tripoint.mk 5 5 0)
    (load 12 11 ".mm" example_deserialize_submap example_deserialize_legacy
       (tripoint.mk 5 5 0) (fresh_map_memory legacy_disk "save")) = Some default_tile ∧
  default_tile ≠ mk_tile "t_floor" 2 1.
Proof.
  split; [reflexivity|]. split; [vm_compute; reflexivity|].
  split; [exists 0%nat; split; vm_compute; reflexivity|].
  do 3 (split; [reflexivity|]).
  split; [vm_compute; reflexivity|]. discriminate.
Qed.

(** ** Witnesses *)

Lemma coord_pair_reconstructs_witness :
  tripoint.x (sm (coord_pair_of 12 (tripoint.mk (-1) 25 3))) * 12
    + point.x (loc (coord_pair_of 12 (tripoint.mk (-1) 25 3))) = -1 ∧
  tripoint.y (sm (coord_pair_of 12 (tripoint.mk (-1) 25 3))) * 12
    + point.y (loc (coord_pair_of 12 (tripoint.mk (-1) 25 3))) = 25 ∧
  0 ≤ point.x (loc (coord_pair_of 12 (tripoint.mk (-1) 25 3))) < 12 ∧
  0 ≤ point.y (loc (coord_pair_of 12 (tripoint.mk (-1) 25 3))) < 12 ∧
  tripoint.z (sm (coord_pair_of 12 (tripoint.mk (-1) 25 3))) = 3.
Proof.
  apply (coord_pair_reconstructs 12). lia.
Defined.



Lemma prepare_region_window_witness :
  sm (coord_pair_of 12 (tripoint.mk 24 36 0)) = tripoint.mk 2 3 0 ∧
  sm (coord_pair_of 12 (tripoint.mk 48 36 0)) = tripoint.mk 4 3 0 ∧
  ∃ s', prepare_region 12 example_deserialize_submap (tripoint.mk 24 36 0) (tripoint.mk 48 36 0)
          (fresh_map_memory chunk_disk "save") = Some s' ∧
        cache_pos s' = tripoint.mk 1 2 0 ∧ cache_size s' = point.mk 4 2 ∧
        length (cached s') = 8%nat.
Proof.
  do 2 (split; [reflexivity|]).
  destruct (prepare_region_window 12 example_deserialize_submap ltac:(lia)
              (tripoint.mk 24 36 0) (tripoint.mk 48 36 0)
              (fresh_map_memory chunk_disk "save") eq_refl ltac:(simpl; lia) ltac:(simpl; lia))
    as (s' & Hs' & _ & _ & Hscen & _ & Hcells).
  exists s'. split; [exact Hs'|].
  destruct (Hscen eq_refl eq_refl) as [Ho Hs]. do 2 (split; [done|]).
  destruct Hcells as (_ & Hlen & _).
  { left. simpl. intros [_ [=]]. }
  exact Hlen.
Defined.

Lemma prepare_region_twice_witness :
  prepare_region 12 example_deserialize_submap (tripoint.mk 12 12 0) (tripoint.mk 12 12 0)
    (fresh_map_memory full_disk "save") = Some small_window ∧
  prepare_region 12 example_deserialize_submap (tripoint.mk 12 12 0) (tripoint.mk 12 12 0)
    small_window = Some small_window.
Proof.
  assert (prepare_region 12 example_deserialize_submap (tripoint.mk 12 12 0)
            (tripoint.mk 12 12 0) (fresh_map_memory full_disk "save") = Some small_window)
    as H by (vm_compute; reflexivity).
  split; [exact H|].
  exact (proj2 (proj2 (prepare_region_twice 12 example_deserialize_submap _ _ _ _ H))).
Defined.


Lemma load_submap_outcomes_witness :
  load_submap example_deserialize_submap (tripoint.mk 0 0 0)
    (fresh_map_memory legacy_disk "save") = (None, fresh_map_memory legacy_disk "save") ∧
  load_submap example_deserialize_submap (tripoint.mk 2 0 0)
    (fresh_map_memory chunk_disk "save") = (None, fresh_map_memory chunk_disk "save") ∧
  load_submap example_deserialize_submap (tripoint.mk 1 0 0)
    (fresh_map_memory chunk_disk "save") =
  (None, debugmsg "Failed to load memory submap (1,0,0): unexpected end of input"
           (fresh_map_memory chunk_disk "save")) ∧
  ∃ p, load_submap example_deserialize_submap (tripoint.mk 0 0 0)
         (fresh_map_memory chunk_disk "save") =
       (Some p, set_heap (insert p floor_chunk) (fresh_map_memory chunk_disk "save")).
Proof.
  split.
  { exact (proj1 (load_submap_outcomes example_deserialize_submap (tripoint.mk 0 0 0)
                    (fresh_map_memory legacy_disk "save")) eq_refl). }
  split.
  { exact (proj1 (proj2 (load_submap_outcomes example_deserialize_submap (tripoint.mk 2 0 0)
                           (fresh_map_memory chunk_disk "save")))
             ltac:(vm_compute; reflexivity) ltac:(vm_compute; reflexivity)). }
  split.
  { exact (proj1 (proj2 (proj2 (load_submap_outcomes example_deserialize_submap
                                  (tripoint.mk 1 0 0) (fresh_map_memory chunk_disk "save"))))
             "garbage" "unexpected end of input"
             ltac:(vm_compute; reflexivity) ltac:(vm_compute; reflexivity) eq_refl). }
  destruct (proj2 (proj2 (proj2 (load_submap_outcomes example_deserialize_submap
                                   (tripoint.mk 0 0 0) (fresh_map_memory chunk_disk "save"))))
              "chunk" floor_chunk
              ltac:(vm_compute; reflexivity) ltac:(vm_compute; reflexivity) eq_refl)
    as (p & Hp & _).
  exists p. exact Hp.
Defined.

Lemma load_legacy_or_square_witness :
  (∃ p, submaps (load 12 11 ".mm" example_deserialize_submap example_deserialize_legacy
                   (tripoint.mk 5 5 0) (fresh_map_memory legacy_disk "save"))
          !! tripoint.mk 0 0 0 = Some p ∧
        heap (load 12 11 ".mm" example_deserialize_submap example_deserialize_legacy
                (tripoint.mk 5 5 0) (fresh_map_memory legacy_disk "save")) !! p
        = Some floor_chunk) ∧
  (∀ s2,
     prepare_region 12 example_deserialize_submap (tripoint.mk (-7) (-7) 0) (tripoint.mk 5 5 0)
       (load 12 11 ".mm" example_deserialize_submap example_deserialize_legacy
          (tripoint.mk 5 5 0) (fresh_map_memory legacy_disk "save")) = Some s2 →
     get_tile 12 (tripoint.mk 5 5 0) s2 = Some (mk_tile "t_floor" 2 1)) ∧
  is_Some (submaps (load 12 11 ".mm" example_deserialize_submap example_deserialize_legacy
                      (tripoint.mk 5 5 0) (fresh_map_memory chunk_disk "save"))
             !! tripoint.mk (-11) (-11) 0).
Proof.
  destruct (load_legacy_or_square 12 11 ".mm" example_deserialize_submap
              example_deserialize_legacy ltac:(lia) (tripoint.mk 5 5 0)
              (fresh_map_memory legacy_disk "save")) as [Hleg _].
  destruct (Hleg "legacy" [(tripoint.mk 0 0 0, floor_chunk)] eq_refl
              ltac:(vm_compute; reflexivity) eq_refl) as (_ & _ & _ & _ & Hk).
  destruct (Hk (tripoint.mk 0 0 0) floor_chunk eq_refl ltac:(vm_compute; reflexivity))
    as [Hstore Hget].
  split; [exact Hstore|].
  split.
  { intros s2 H.
    apply (Hget (tripoint.mk (-7) (-7) 0) (tripoint.mk 5 5 0) s2 (tripoint.mk 5 5 0) H).
    - simpl. intros [_ [=]].
    - reflexivity.
    - reflexivity.
    - vm_compute in H. injection H as <-. simpl. lia.
    - vm_compute in H. injection H as <-. simpl. lia. }
  destruct (load_legacy_or_square 12 11 ".mm" example_deserialize_submap
              example_deserialize_legacy ltac:(lia) (tripoint.mk 5 5 0)
              (fresh_map_memory chunk_disk "save")) as [_ Hdir].
  destruct (Hdir ltac:(vm_compute; reflexivity)) as [_ Hall].
  exact (Hall 0 0 ltac:(lia) ltac:(lia)).
Defined.

(** ** Straight paths *)



(** ** Witnesses of the further properties *)

Lemma small_window_inv : memory_inv small_window.
Proof.
  apply (memory_inv_prepare_region 12 example_deserialize_submap
           (tripoint.mk 12 12 0) (tripoint.mk 12 12 0) (fresh_map_memory full_disk "save")).
  - split; [reflexivity|]. split; [by intros k p|by intros k k' p].
  - vm_compute. reflexivity.
Defined.

Lemma memorize_then_get_witness :
  ∃ s', memorize_tile 12 (tripoint.mk 17 17 0) "t_floor" 2 1 small_window = Some s' ∧
        get_tile 12 (tripoint.mk 17 17 0) s' = Some (mk_tile "t_floor" 2 1) ∧
        get_tile 12 (tripoint.mk 17 17 3) s' = Some (mk_tile "t_floor" 2 1).
Proof.
  eexists. split; [vm_compute; reflexivity|].
  destruct (memorize_then_get 12 ltac:(lia) (tripoint.mk 17 17 0) "t_floor" 2 1 35
              small_window) as [H _].
  split; [apply (H _ 0)|apply (H _ 3)]; vm_compute; reflexivity.
Defined.

Lemma tiles_and_symbols_independent_witness :
  ∃ s', memorize_tile 12 (tripoint.mk 17 17 0) "t_floor" 2 1 small_window = Some s' ∧
        get_symbol 12 (tripoint.mk 17 17 0) s' = get_symbol 12 (tripoint.mk 17 17 0) small_window.
Proof.
  eexists. split; [vm_compute; reflexivity|].
  destruct (tiles_and_symbols_independent 12 ltac:(lia) (tripoint.mk 17 17 0)
              (tripoint.mk 17 17 0) "t_floor" 2 1 35 small_window) as [H _].
  apply H. vm_compute. reflexivity.
Defined.

Lemma clear_then_get_witness :
  ∃ s', clear_memorized_tile 12 (tripoint.mk 17 17 0) floor_window = Some s' ∧
        get_tile 12 (tripoint.mk 17 17 0) floor_window = Some (mk_tile "t_floor" 2 1) ∧
        get_tile 12 (tripoint.mk 17 17 0) s' = Some default_tile ∧
        get_symbol 12 (tripoint.mk 17 17 0) s' = Some default_symbol.
Proof.
  eexists. split; [vm_compute; reflexivity|]. split; [vm_compute; reflexivity|].
  apply (clear_then_get 12 ltac:(lia) (tripoint.mk 17 17 0) floor_window _ 0).
  vm_compute. reflexivity.
Defined.

Lemma memory_inv_kept_witness :
  memory_inv small_window ∧
  memory_inv (fetch_submap example_deserialize_submap (tripoint.mk 7 7 0) small_window).2.
Proof.
  split; [exact small_window_inv|].
  destruct (memory_inv_kept 12 11 ".mm" example_deserialize_submap example_serialize_submap
              example_deserialize_legacy ltac:(lia) small_window) as [_ H].
  destruct (H small_window_inv) as [Hfetch _]. apply Hfetch.
Defined.

Lemma accesses_are_defined_witness :
  memory_inv small_window ∧
  is_Some (get_tile 12 (tripoint.mk 17 17 0) small_window) ∧
  is_Some (get_tile 12 (tripoint.mk (-100) 5 0) small_window) ∧
  is_Some (save example_serialize_submap small_window).
Proof.
  split; [exact small_window_inv|].
  destruct (accesses_are_defined 12 example_serialize_submap ltac:(lia) small_window
              (tripoint.mk 17 17 0) small_window_inv) as (H1 & _ & _ & _ & _ & H2).
  destruct (accesses_are_defined 12 example_serialize_submap ltac:(lia) small_window
              (tripoint.mk (-100) 5 0) small_window_inv) as (H3 & _).
  done.
Defined.

Lemma memorize_elsewhere_unchanged_witness :
  in_cells (sm (coord_pair_of 12 (tripoint.mk 17 17 0))) small_window ∧
  ∃ s', memorize_tile 12 (tripoint.mk 17 17 0) "t_floor" 2 1 small_window = Some s' ∧
        get_tile 12 (tripoint.mk 18 17 0) s' = get_tile 12 (tripoint.mk 18 17 0) small_window.
Proof.
  assert (in_cells (sm (coord_pair_of 12 (tripoint.mk 17 17 0))) small_window) as Hin.
  { unfold in_cells. cbv -[Z.le Z.lt]. lia. }
  split; [exact Hin|].
  eexists. split; [vm_compute; reflexivity|].
  destruct (memorize_elsewhere_unchanged 12 ltac:(lia) (tripoint.mk 17 17 0)
              (tripoint.mk 18 17 0) "t_floor" 2 1 35 small_window small_window_inv Hin)
    as [H _].
  { left. simpl. lia. }
  apply H. vm_compute. reflexivity.
Defined.

Lemma remembered_across_regions_witness :
  ∃ s1 s2,
    memorize_tile 12 (tripoint.mk 17 17 0) "t_floor" 2 1 small_window = Some s1 ∧
    prepare_region 12 example_deserialize_submap (tripoint.mk 5 5 0) (tripoint.mk 30 30 0) s1
    = Some s2 ∧
    cache_pos s2 = tripoint.mk (-1) (-1) 0 ∧ cache_size s2 = point.mk 4 4 ∧
    get_tile 12 (tripoint.mk 17 17 0) s2 = Some (mk_tile "t_floor" 2 1).
Proof.
  eexists. eexists. split; [vm_compute; reflexivity|].
  split; [vm_compute; reflexivity|].
  split; [reflexivity|]. split; [reflexivity|].
  eapply (remembered_across_regions 12 example_deserialize_submap ltac:(lia)
            (tripoint.mk 17 17 0) (tripoint.mk 5 5 0) (tripoint.mk 30 30 0) "t_floor" 2 1
            small_window).
  - exact small_window_inv.
  - unfold in_cells. cbv -[Z.le Z.lt]. lia.
  - reflexivity.
  - vm_compute. reflexivity.
  - vm_compute. reflexivity.
  - reflexivity.
  - unfold in_cells. cbv -[Z.le Z.lt]. lia.
Defined.


Lemma save_changes_only_chunk_files_witness :
  ∃ r, save example_serialize_submap floor_window = Some r ∧
       heap r.2 = heap floor_window ∧ submaps r.2 = submaps floor_window ∧
       files (disk r.2) !! "save.mm" = Some "legacy".
Proof.
  eexists. split; [vm_compute; reflexivity|].
  destruct (save_changes_only_chunk_files example_serialize_submap floor_window _ "save.mm"
              ltac:(vm_compute; reflexivity)) as (Hs & _ & _ & _ & Hh & _ & _ & _).
  split; [exact Hh|]. split; [exact Hs|]. vm_compute. reflexivity.
Defined.

Lemma save_writes_each_chunk_witness :
  ∃ r, save example_serialize_submap floor_window = Some r ∧
       files (disk r.2) !! "save.mm1/1.1.0.mm" = Some "chunk".
Proof.
  eexists. split; [vm_compute; reflexivity|].
  exact (save_writes_each_chunk example_serialize_submap floor_window _
           (tripoint.mk 1 1 0) 3%nat floor_chunk
           ltac:(vm_compute; reflexivity) ltac:(vm_compute; reflexivity)
           ltac:(vm_compute; reflexivity)).
Defined.

Lemma saved_then_read_back_witness :
  ∃ r s2,
    save example_serialize_submap floor_window = Some r ∧
    prepare_region 12 example_deserialize_submap (tripoint.mk 12 12 0) (tripoint.mk 17 17 0)
      (fresh_map_memory (disk r.2) "save") = Some s2 ∧
    get_tile 12 (tripoint.mk 17 17 0) s2 = Some (mk_tile "t_floor" 2 1).
Proof.
  eexists. eexists. split; [vm_compute; reflexivity|].
  split; [vm_compute; reflexivity|].
  change (mk_tile "t_floor" 2 1)
    with (tiles floor_chunk (point.x (loc (coord_pair_of 12 (tripoint.mk 17 17 0))))
            (point.y (loc (coord_pair_of 12 (tripoint.mk 17 17 0))))).
  eapply (saved_then_read_back 12 example_deserialize_submap example_serialize_submap
            ltac:(lia) floor_window _ (tripoint.mk 17 17 0) (tripoint.mk 12 12 0)
            (tripoint.mk 17 17 0) 3%nat floor_chunk).
  - vm_compute. reflexivity.
  - vm_compute. reflexivity.
  - vm_compute. reflexivity.
  - right. reflexivity.
  - reflexivity.
  - reflexivity.
  - vm_compute. reflexivity.
  - reflexivity.
  - unfold in_cells. cbv -[Z.le Z.lt]. lia.
Defined.

Lemma tracked_chunks_are_kept_witness :
  ∃ s', prepare_region 12 example_deserialize_submap (tripoint.mk 5 5 0) (tripoint.mk 30 30 0)
          floor_window = Some s' ∧
        submaps s' !! tripoint.mk 1 1 0 = Some 3%nat ∧ heap s' !! 3%nat = Some floor_chunk.
Proof.
  eexists. split; [vm_compute; reflexivity|].
  destruct (tracked_chunks_are_kept 12 11 ".mm" example_deserialize_submap
              example_deserialize_legacy floor_window (tripoint.mk 1 1 0) 3%nat floor_chunk
              ltac:(vm_compute; reflexivity) ltac:(vm_compute; reflexivity)) as [_ H].
  destruct (H (tripoint.mk 5 5 0) (tripoint.mk 30 30 0) _ ltac:(vm_compute; reflexivity))
    as (H1 & H2 & _).
  split; [exact H1|exact H2].
Defined.

Lemma prepare_region_of_tracked_witness :
  ∃ s', prepare_region 12 example_deserialize_submap (tripoint.mk 12 12 0)
          (tripoint.mk 12 12 0)
          (with_window (tripoint.mk 0 0 0) (point.mk 0 0) [] small_window) = Some s' ∧
        submaps s' = submaps small_window ∧ heap s' = heap small_window ∧
        cache_size s' = point.mk 2 2.
Proof.
  eexists. split; [vm_compute; reflexivity|].
  edestruct (prepare_region_of_tracked 12 example_deserialize_submap (tripoint.mk 12 12 0)
               (tripoint.mk 12 12 0)
               (with_window (tripoint.mk 0 0 0) (point.mk 0 0) [] small_window))
    as (Hs & Hh & _ & _ & _ & _ & Hz).
  - intros k Hin.
    assert (window_coords (region_origin 12 (tripoint.mk 12 12 0))
              (region_size 12 (tripoint.mk 12 12 0) (tripoint.mk 12 12 0))
            = [tripoint.mk 0 0 0; tripoint.mk 1 0 0; tripoint.mk 0 1 0; tripoint.mk 1 1 0])
      as Hl by reflexivity.
    rewrite Hl in Hin. rewrite !elem_of_cons in Hin.
    destruct Hin as [->|[->|[->|[->|Hin]]]]; [by eexists..|by apply elem_of_nil in Hin].
  - vm_compute. reflexivity.
  - split; [exact Hs|]. split; [exact Hh|]. exact Hz.
Defined.

